(** * On-device sampling: a shallow embedding of
      [neuronx_distributed_inference/modules/generation/sampling.py]

    Numbers.  Tensor elements are floating-point numbers in the source; they
    are idealised here as real numbers ([R]), with [exp] the real exponential.
    Rounding, overflow and the special values of floating point are not
    modelled (a division by a zero temperature is whatever [/ 0] is in [R]):
    every statement below is about the exact-arithmetic reading of the code.
    Token ids, positions and counts are natural numbers.

    Tensors.  A 1-D tensor is a [list R]; a 2-D tensor of shape (B, V) is a
    list of B rows.  The logits are taken of shape (B, V), the sampling
    parameters of shape (B, 3).  A column tensor of shape (B, 1), which the
    source only ever broadcasts against the rows of a (B, V) tensor, is kept
    as the list of its B entries.  All reductions of the source run along the
    last axis ([dim = len(shape) - 1]), so the [dim] argument is not carried
    around.

    Effects.  [prepare_sampling_params] is run over a heap of Python objects
    (lists and tensors are mutable and passed by reference); [Sampler.forward]
    is run over the state of the device random number generator.  In both, a
    raised exception ends the computation. *)

From Stdlib Require Import Reals Lra Lia List Bool Arith ZArith.
From Stdlib Require Import Sorted Permutation.
Import ListNotations.

Open Scope R_scope.

(* ================================================================= *)
(** ** Exceptions and the state-and-exception monad *)

Inductive message : Type :=
| ShapesDontMatch (top_k_shape top_p_shape temperature_shape : nat)
    (* "sampling params shapes don't match. Got top_k shape: ..." *)
| NotInitialized.
    (* "on device configs is not initialized" *)

Inductive exception : Type :=
| AssertionError (msg : message)
| RuntimeError      (* a torch size, shape or range check failed *)
| IndexError
| TypeError.

Inductive result (A : Type) : Type :=
| Ok (a : A)
| Raise (e : exception).
Arguments Ok {A} a.
Arguments Raise {A} e.

Definition M (S A : Type) : Type := S -> result A * S.

Definition ret {S A : Type} (a : A) : M S A := fun s => (Ok a, s).

Definition raise {S A : Type} (e : exception) : M S A := fun s => (Raise e, s).

Definition bind {S A B : Type} (c : M S A) (k : A -> M S B) : M S B :=
  fun s => match c s with
           | (Ok a, s') => k a s'
           | (Raise e, s') => (Raise e, s')
           end.

Definition lift {S A : Type} (r : result A) : M S A := fun s => (r, s).

Declare Scope monad_scope.
Delimit Scope monad_scope with monad.
Notation "x <- c ;; k" := (bind c (fun x => k))
  (at level 61, c at next level, right associativity) : monad_scope.
Notation "' p <- c ;; k" := (bind c (fun x => let p := x in k))
  (at level 61, p pattern, c at next level, right associativity) : monad_scope.
Open Scope monad_scope.

(** Exceptions without state. *)
Definition bindR {A B : Type} (r : result A) (k : A -> result B) : result B :=
  match r with
  | Ok a => k a
  | Raise e => Raise e
  end.

Fixpoint mapR {A B : Type} (f : A -> result B) (l : list A) : result (list B) :=
  match l with
  | [] => Ok []
  | x :: t => bindR (f x) (fun y => bindR (mapR f t) (fun ys => Ok (y :: ys)))
  end.

(* ================================================================= *)
(** ** Comparisons on numbers, as booleans *)

Definition Rleb (x y : R) : bool := if Rle_dec x y then true else false.
Definition Rltb (x y : R) : bool := if Rlt_dec x y then true else false.
Definition Rgeb (x y : R) : bool := Rleb y x.
Definition Rgtb (x y : R) : bool := Rltb y x.
Definition Rneb (x y : R) : bool := if Req_dec_T x y then false else true.

(* ================================================================= *)
(** ** Python objects: the heap [prepare_sampling_params] runs over *)

(** A list or a 1-D tensor lives in the heap and is passed by reference; a
    number is passed by value. *)
Inductive pyobj : Type :=
| ObjList (items : list R)
| ObjTensor (data : list R).

Inductive pyval : Type :=
| Scalar (x : R)
| Ref (a : nat).

Definition heap : Type := list pyobj.

Definition alloc (o : pyobj) : M heap pyval :=
  fun h => (Ok (Ref (length h)), h ++ [o]).

Definition deref (val : pyval) : M heap pyobj :=
  fun h => match val with
           | Ref a => match nth_error h a with
                      | Some o => (Ok o, h)
                      | None => (Raise TypeError, h)
                      end
           | Scalar _ => (Raise TypeError, h)
           end.

Definition is_tensor (val : pyval) : M heap bool :=
  fun h => match val with
           | Ref a => match nth_error h a with
                      | Some (ObjTensor _) => (Ok true, h)
                      | _ => (Ok false, h)
                      end
           | Scalar _ => (Ok false, h)
           end.

Definition isinstance_list (val : pyval) : M heap bool :=
  fun h => match val with
           | Ref a => match nth_error h a with
                      | Some (ObjList _) => (Ok true, h)
                      | _ => (Ok false, h)
                      end
           | Scalar _ => (Ok false, h)
           end.

(** [[val]]: a new one-element list. *)
Definition singleton_list (val : pyval) : M heap pyval :=
  match val with
  | Scalar x => alloc (ObjList [x])
  | Ref _ => raise TypeError
  end.

(** [torch.tensor(val)] for a list [val]: a new tensor holding a copy. *)
Definition torch_tensor (val : pyval) : M heap pyval :=
  o <- deref val ;;
  match o with
  | ObjList items => alloc (ObjTensor items)
  | ObjTensor data => alloc (ObjTensor data)
  end.

(** [t.shape[0]] and the data of a 1-D tensor. *)
Definition tensor_data (val : pyval) : M heap (list R) :=
  o <- deref val ;;
  match o with
  | ObjTensor data => ret data
  | ObjList _ => raise TypeError
  end.

Definition shape0 (val : pyval) : M heap nat :=
  data <- tensor_data val ;; ret (length data).

(** [t.broadcast_to(batch_size)] for [t] of shape (1,): a view that repeats
    the one entry; any other length must already equal the target. *)
Definition broadcast_to (val : pyval) (batch_size : nat) : M heap pyval :=
  data <- tensor_data val ;;
  match data with
  | [x] => alloc (ObjTensor (repeat x batch_size))
  | _ => if Nat.eqb (length data) batch_size then ret val else raise RuntimeError
  end.

(** [torch.stack([a, b, c], dim=1)] of three 1-D tensors of one length n: a
    new tensor of shape (n, 3), returned by value. *)
Fixpoint stack3 (a b c : list R) : list (list R) :=
  match a, b, c with
  | x :: a', y :: b', z :: c' => [x; y; z] :: stack3 a' b' c'
  | _, _, _ => []
  end.

Definition torch_stack (a b c : pyval) : M heap (list (list R)) :=
  da <- tensor_data a ;;
  db <- tensor_data b ;;
  dc <- tensor_data c ;;
  if Nat.eqb (length da) (length db) && Nat.eqb (length db) (length dc)
  then ret (stack3 da db dc)
  else raise RuntimeError.

(* ================================================================= *)
(** ** [prepare_tensor] and [prepare_sampling_params] *)

(** The three parameters are passed explicitly: a caller that relies on the
    defaults of the source passes the lists [[1]], [[1.0]] and [[1.0]]. *)

Definition prepare_tensor (val : pyval) : M heap pyval :=
  t <- is_tensor val ;;
  if negb t then
    l <- isinstance_list val ;;
    val <- (if negb l then singleton_list val else ret val) ;;
    torch_tensor val
  else ret val.

Definition prepare_sampling_params (batch_size : nat)
    (top_k top_p temperature : pyval) : M heap (list (list R)) :=
  top_k <- prepare_tensor top_k ;;
  top_p <- prepare_tensor top_p ;;
  temperature <- prepare_tensor temperature ;;
  nk <- shape0 top_k ;;
  np <- shape0 top_p ;;
  nt <- shape0 temperature ;;
  if Nat.eqb nk np && Nat.eqb np nt then
    '(top_k, top_p, temperature) <-
      (if Nat.eqb nk 1 then
         top_k <- broadcast_to top_k batch_size ;;
         top_p <- broadcast_to top_p batch_size ;;
         temperature <- broadcast_to temperature batch_size ;;
         ret (top_k, top_p, temperature)
       else ret (top_k, top_p, temperature)) ;;
    torch_stack top_k top_p temperature
  else raise (AssertionError (ShapesDontMatch nk np nt)).

(* ================================================================= *)
(** ** The tensor operations the sampler uses *)

(** Row by row application, used to broadcast a (B, 1) column against the B
    rows of a tensor.  The two operands are meant to have the same number of
    rows (torch raises otherwise); the statements below say so where the
    operand is an input. *)
Definition map2 {A B C : Type} (f : A -> B -> C) (l1 : list A) (l2 : list B)
  : list C :=
  map (fun ab => f (fst ab) (snd ab)) (combine l1 l2).

Module torch.

(** [torch.argmax] along the last axis: the first position that holds the
    maximum.  A row of size zero cannot be reduced. *)
Fixpoint argmax_from (best_i : nat) (best : R) (i : nat) (row : list R)
  : nat :=
  match row with
  | [] => best_i
  | x :: t => if Rgtb x best then argmax_from i x (S i) t
              else argmax_from best_i best (S i) t
  end.

Definition argmax_row (row : list R) : result nat :=
  match row with
  | [] => Raise IndexError
  | x :: t => Ok (argmax_from 0%nat x 1%nat t)
  end.

Definition argmax (t : list (list R)) : result (list nat) :=
  mapR argmax_row t.

(** [torch.sort(descending=True)] along the last axis: the values and the
    positions they came from.  Equal values keep their original order. *)
Fixpoint insert_desc (p : R * nat) (l : list (R * nat)) : list (R * nat) :=
  match l with
  | [] => [p]
  | q :: t => if Rgeb (fst p) (fst q) then p :: q :: t
              else q :: insert_desc p t
  end.

Definition sort_row (row : list R) : list (R * nat) :=
  fold_right insert_desc [] (combine row (seq 0 (length row))).

Definition sort (t : list (list R)) : list (list R) * list (list nat) :=
  (map (fun row => map fst (sort_row row)) t,
   map (fun row => map snd (sort_row row)) t).

(** [torch.topk(k)] along the last axis: the k largest, in descending
    order; k must not exceed the size of the axis. *)
Definition topk (t : list (list R)) (k : nat)
  : result (list (list R) * list (list nat)) :=
  if forallb (fun row => Nat.leb k (length row)) t
  then Ok (map (fun row => firstn k (map fst (sort_row row))) t,
           map (fun row => firstn k (map snd (sort_row row))) t)
  else Raise RuntimeError.

(** [torch.all] and [torch.any] of a boolean tensor. *)
Definition all (t : list bool) : bool := forallb (fun b => b) t.
Definition any (t : list bool) : bool := existsb (fun b => b) t.

(** [torch.arange(n)], as numbers. *)
Definition arange (n : nat) : list R := map INR (seq 0 n).

(** Comparison of a (B, V) tensor with a (B, 1) column, broadcast. *)
Definition greater_equal (t : list (list R)) (col : list R)
  : list (list bool) :=
  map2 (fun row c => map (fun x => Rgeb x c) row) t col.

Definition greater (t : list (list R)) (col : list R) : list (list bool) :=
  map2 (fun row c => map (fun x => Rgtb x c) row) t col.

(** [torch.greater(col, t)]: the column on the left. *)
Definition greater_col (col : list R) (t : list (list R))
  : list (list bool) :=
  map2 (fun c row => map (fun x => Rgtb c x) row) col t.

(** [t.masked_fill_(mask, value)]. *)
Definition masked_fill (t : list (list R)) (mask : list (list bool))
    (value : R) : list (list R) :=
  map2 (fun row mrow => map2 (fun x (m : bool) => if m then value else x)
                             row mrow) t mask.

(** [mask.index_fill_(dim, tensor([0]), value)]: position 0 of every row. *)
Definition index_fill_0 (mask : list (list bool)) (value : bool)
  : list (list bool) :=
  map (fun mrow => match mrow with
                   | [] => []
                   | _ :: t => value :: t
                   end) mask.

(** [torch.divide(t, col)], the column broadcast along the rows. *)
Definition divide (t : list (list R)) (col : list R) : list (list R) :=
  map2 (fun row c => map (fun x => x / c) row) t col.

(** [torch.nn.functional.softmax] along the last axis. *)
Definition sum_row (row : list R) : R := fold_right Rplus 0 row.

Definition softmax_row (row : list R) : list R :=
  let e := map exp row in
  map (fun x => x / sum_row e) e.

Definition softmax (t : list (list R)) : list (list R) :=
  map softmax_row t.

(** [torch.cumsum] along the last axis. *)
Fixpoint cumsum_from (acc : R) (row : list R) : list R :=
  match row with
  | [] => []
  | x :: t => (acc + x) :: cumsum_from (acc + x) t
  end.

Definition cumsum_row (row : list R) : list R := cumsum_from 0 row.

Definition cumsum (t : list (list R)) : list (list R) :=
  map cumsum_row t.

(** [torch.min(t)] without a [dim]: the least entry of the whole tensor,
    which must not be empty. *)
Definition min (t : list (list R)) : result R :=
  match concat t with
  | [] => Raise RuntimeError
  | x :: l => Ok (fold_left Rmin l x)
  end.

(** [torch.max(m, col)] for a scalar tensor [m]: entrywise maximum. *)
Definition max (m : R) (col : list R) : list R := map (Rmax m) col.

(** [torch.sum(mask, dim)]: the number of true entries of every row. *)
Definition count_row (mrow : list bool) : nat :=
  length (filter (fun b => b) mrow).

Definition sum (mask : list (list bool)) : list nat := map count_row mask.

(** [torch.gather(input, dim, index)] for an index column of shape (B, 1):
    entry [index[i]] of row i; an index outside the row is an error. *)
Definition gather {A : Type} (input : list (list A)) (index : list nat)
  : result (list A) :=
  mapR (fun ri => match nth_error (fst ri) (snd ri) with
                  | Some x => Ok x
                  | None => Raise RuntimeError
                  end) (combine input index).

Definition ones (n : nat) : list R := repeat 1 n.
Definition full (n : nat) (fill_value : R) : list R := repeat fill_value n.

End torch.

(** [sampling_params[:, j].reshape(batch_size, 1)]. *)
Definition column (j : nat) (t : list (list R)) : result (list R) :=
  mapR (fun row => match nth_error row j with
                   | Some x => Ok x
                   | None => Raise IndexError
                   end) t.

Definition reshape (batch_size : nat) (col : list R) : result (list R) :=
  if Nat.eqb (length col) batch_size then Ok col else Raise RuntimeError.

(* ================================================================= *)
(** ** The distributed primitives and the device random numbers *)

Inductive ProcessGroup : Type :=
| speculative_draft_group
| tensor_model_parallel_group.

(** Modelled from the spec: the distributed argmax of [neuronx_distributed]
    is not part of this repository; it is "global arg-max across shards". *)
Definition nxd_argmax (tensor : list (list R))
    (process_group : option ProcessGroup) : result (list nat) :=
  torch.argmax tensor.

(** Modelled from the spec: the distributed top-k of [neuronx_distributed] is
    not part of this repository; it is "semantically equivalent to a global
    top-k across a sharded vocabulary axis". *)
Definition nxd_topk (tensor : list (list R)) (k : nat)
    (process_group : option ProcessGroup)
  : result (list (list R) * list (list nat)) :=
  torch.topk tensor k.

(** The device generator: an unbounded supply of numbers and how many of
    them have been drawn. *)
Record rng : Type := { stream : nat -> R; cursor : nat }.

(** [rand_like(zeros((n, 1)))]: n fresh draws.  The source draws uniformly
    between 0 (included) and 1 (excluded); a statement that depends on this
    range assumes it of the generator. *)
Definition rand_like (n : nat) : M rng (list R) :=
  fun g => (Ok (map (stream g) (seq (cursor g) n)),
            {| stream := stream g; cursor := (cursor g + n)%nat |}).

(* ================================================================= *)
(** ** The hosting configuration and the [Sampler] *)

Module Config.

Record OnDeviceSamplingConfig : Type := {
  do_sample : bool;
  dynamic : bool;
  deterministic : bool;
  global_topk : Z
}.

(** [is_medusa] and [use_draft_group] are attributes the configuration may
    or may not have ([hasattr]). *)
Record NeuronConfig : Type := {
  on_device_sampling_config : option OnDeviceSamplingConfig;
  is_medusa : option bool;
  use_draft_group : option bool;
  on_cpu : bool
}.

End Config.

Record Sampler : Type := {
  on_device_sampling : bool;
  is_medusa : bool;
  neuron_config : Config.NeuronConfig;
  do_sample : bool;
  dynamic : bool;
  deterministic : bool;
  global_topk : Z;
  IGNORED_LOGITS_VALUE : R;
  process_group : option ProcessGroup
}.

(** [Sampler.__init__(neuron_config, do_sample=None)]. *)
Definition Sampler_init (neuron_config : Config.NeuronConfig)
    (do_sample : option bool) : result Sampler :=
  match Config.on_device_sampling_config neuron_config with
  | None => Raise (AssertionError NotInitialized)
  | Some sampling_config =>
      Ok {| on_device_sampling := true;
            is_medusa := match Config.is_medusa neuron_config with
                         | Some b => b
                         | None => false
                         end;
            neuron_config := neuron_config;
            do_sample := match do_sample with
                         | Some b => b
                         | None => Config.do_sample sampling_config
                         end;
            dynamic := Config.dynamic sampling_config;
            deterministic := Config.deterministic sampling_config;
            global_topk := Config.global_topk sampling_config;
            IGNORED_LOGITS_VALUE := -3000;
            process_group :=
              if negb (Config.on_cpu neuron_config) then
                match Config.use_draft_group neuron_config with
                | Some true => Some speculative_draft_group
                | _ => Some tensor_model_parallel_group
                end
              else None |}
  end.

Definition _soft_max (self : Sampler) (logits : list (list R))
  : list (list R) :=
  torch.softmax logits.

Definition _top_k_masked (self : Sampler) (logits : list (list R))
    (top_k : list R) : result (list (list R) * list (list nat)) :=
  bindR
    (if Z.gtb (global_topk self) 0 then
       if Config.on_cpu (neuron_config self)
       then torch.topk logits (Z.to_nat (global_topk self))
       else nxd_topk logits (Z.to_nat (global_topk self)) (process_group self)
     else Ok (torch.sort logits))
    (fun sorted =>
       let '(sorted_logits, indeces) := sorted in
       let mask := map (fun row => torch.arange (length row)) sorted_logits in
       let mask := torch.greater_equal mask top_k in
       let sorted_logits :=
         torch.masked_fill sorted_logits mask (IGNORED_LOGITS_VALUE self) in
       Ok (sorted_logits, indeces)).


Definition _rand_selector (self : Sampler) (probs_cumsum : list (list R))
  : M rng (list R) :=
  if deterministic self
  then ret (torch.full (length probs_cumsum) (1 / 2))
  else rand_like (length probs_cumsum).

Definition _multinomial (self : Sampler) (probs : list (list R))
  : M rng (list nat) :=
  let probs_cumsum := torch.cumsum probs in
  rand_selector <- _rand_selector self probs_cumsum ;;
  let greater_than_rand := torch.greater_col rand_selector probs_cumsum in
  let counts := torch.sum greater_than_rand in
  ret counts.

(** The top-p block of [forward] (the body of [if self.dynamic or
    torch.any(top_p < 1.0)]), in its three assignments: the clamped
    threshold, the mask, the masked values. *)
Definition clamped_top_p (probs_cumsum : list (list R)) (top_p : list R)
  : result (list R) :=
  bindR (torch.min probs_cumsum) (fun m => Ok (torch.max m top_p)).

Definition top_p_mask_of (probs_cumsum : list (list R)) (top_p : list R)
  : list (list bool) :=
  torch.index_fill_0 (torch.greater probs_cumsum top_p) false.

Definition apply_top_p (self : Sampler) (top_k_logits_values : list (list R))
    (top_p : list R) : result (list (list R)) :=
  let probs_soft_max := _soft_max self top_k_logits_values in
  let probs_cumsum := torch.cumsum probs_soft_max in
  bindR (clamped_top_p probs_cumsum top_p) (fun top_p =>
  let top_p_mask := top_p_mask_of probs_cumsum top_p in
  Ok (torch.masked_fill top_k_logits_values top_p_mask
        (IGNORED_LOGITS_VALUE self))).

(** What [forward] returns: a 1-D tensor of token ids, the pair of such a
    tensor with a tensor of values, a 2-D tensor of candidate indices, or the
    pair of such a tensor with the probabilities. *)
Inductive output : Type :=
| OutTokens (tokens : list nat)
| OutTokensValues (tokens : list nat) (values : list R)
| OutIndices (indices : list (list nat))
| OutIndicesProbs (indices : list (list nat)) (probs : list (list R)).

(** The test of the first [if] of [forward]. *)
Definition greedy (self : Sampler) (top_k : list R) : bool :=
  negb (do_sample self)
  || (negb (dynamic self) && torch.all (map (fun k => Rleb k 1) top_k)).

Definition forward (self : Sampler) (token_logits sampling_params
    : list (list R)) (return_values : bool) : M rng output :=
  let batch_size := length token_logits in
  top_k <- lift (bindR (column 0 sampling_params) (reshape batch_size)) ;;
  top_p <- lift (bindR (column 1 sampling_params) (reshape batch_size)) ;;
  temperature <-
    lift (bindR (column 2 sampling_params) (reshape batch_size)) ;;
  if greedy self top_k then
    if Config.on_cpu (neuron_config self) then
      tokens <- lift (torch.argmax token_logits) ;;
      ret (OutTokens tokens)
    else
      tokens <- lift (nxd_argmax token_logits (process_group self)) ;;
      let values := torch.ones (length tokens) in
      if return_values then ret (OutTokensValues tokens values)
      else ret (OutTokens tokens)
  else
    '(top_k_logits_values, top_k_logits_indices) <-
      lift (_top_k_masked self token_logits top_k) ;;
    if is_medusa self then ret (OutIndices top_k_logits_indices)
    else
      let top_k_logits_values :=
        if dynamic self
           || torch.any (map (fun t => Rneb t 1) temperature)
        then torch.divide top_k_logits_values temperature
        else top_k_logits_values in
      top_k_logits_values <-
        (if dynamic self || torch.any (map (fun p => Rltb p 1) top_p)
         then lift (apply_top_p self top_k_logits_values top_p)
         else ret top_k_logits_values) ;;
      let probs_soft_max := _soft_max self top_k_logits_values in
      if return_values
      then ret (OutIndicesProbs top_k_logits_indices probs_soft_max)
      else
        counts <- _multinomial self probs_soft_max ;;
        tokens <- lift (torch.gather top_k_logits_indices counts) ;;
        ret (OutTokens tokens).

(* ================================================================= *)
(** ** Notions used in the statements *)

(** The 1-D sequence an argument of [prepare_sampling_params] is coerced to:
    a number gives a sequence of one entry, a list or a tensor its entries. *)
Definition coerced (h : heap) (val : pyval) : option (list R) :=
  match val with
  | Scalar x => Some [x]
  | Ref a => match nth_error h a with
             | Some (ObjList items) => Some items
             | Some (ObjTensor data) => Some data
             | None => None
             end
  end.

(** [h'] is [h] with new objects allocated after it: every object of [h] is
    still there, at its address, unchanged. *)
Definition extends (h h' : heap) : Prop := exists new, h' = h ++ new.

(** Position [i] of [row] holds the value [x], no entry of [row] is larger,
    and every entry before [i] is smaller: [i] is the first arg-max. *)
Definition argmax_at (row : list R) (i : nat) (x : R) : Prop :=
  nth_error row i = Some x
  /\ (forall j y, nth_error row j = Some y -> y <= x)
  /\ (forall j y, (j < i)%nat -> nth_error row j = Some y -> y < x).

Definition is_argmax (row : list R) (i : nat) : Prop :=
  exists x, argmax_at row i x.

(** The token ids of an output that carries one id per batch row. *)
Definition tokens_of (out : output) : option (list nat) :=
  match out with
  | OutTokens tokens => Some tokens
  | OutTokensValues tokens _ => Some tokens
  | OutIndices _ => None
  | OutIndicesProbs _ _ => None
  end.

(** The configuration with the given flags, and the sampler
    [Sampler(neuron_config)] built from it; used for concrete runs. *)
Definition a_config (on_cpu medusa do_sample dynamic deterministic : bool)
    (global_topk : Z) : Config.NeuronConfig :=
  {| Config.on_device_sampling_config :=
       Some {| Config.do_sample := do_sample;
               Config.dynamic := dynamic;
               Config.deterministic := deterministic;
               Config.global_topk := global_topk |};
     Config.is_medusa := Some medusa;
     Config.use_draft_group := None;
     Config.on_cpu := on_cpu |}.

Definition a_sampler (on_cpu medusa do_sample dynamic deterministic : bool)
    (global_topk : Z) : Sampler :=
  {| on_device_sampling := true;
     is_medusa := medusa;
     neuron_config :=
       a_config on_cpu medusa do_sample dynamic deterministic global_topk;
     do_sample := do_sample;
     dynamic := dynamic;
     deterministic := deterministic;
     global_topk := global_topk;
     IGNORED_LOGITS_VALUE := -3000;
     process_group :=
       if negb on_cpu then Some tensor_model_parallel_group else None |}.

(** A generator whose every draw is [x]. *)
Definition constant_rng (x : R) : rng := {| stream := fun _ => x; cursor := 0 |}.

(** The candidate axis after the top-k step: [global_topk] when it is
    positive, the whole vocabulary (size [V]) otherwise. *)
Definition k_used (self : Sampler) (V : nat) : nat :=
  if Z.gtb (global_topk self) 0 then Z.to_nat (global_topk self) else V.

(** [irow] lists distinct positions of [row], in descending order of the
    values they hold, and no position left out holds a larger value than a
    listed one. *)
Definition top_candidates (row : list R) (irow : list nat) : Prop :=
  NoDup irow
  /\ Forall (fun i => (i < length row)%nat) irow
  /\ StronglySorted (fun i j => nth j row 0 <= nth i row 0) irow
  /\ (forall i j, In i irow -> (j < length row)%nat -> ~ In j irow ->
      nth j row 0 <= nth i row 0).

(** How many entries of [cumulative] are strictly less than [draw]. *)
Definition count_less (draw : R) (cumulative : list R) : nat :=
  length (filter (fun c => Rltb c draw) cumulative).

(** Two 2-D tensors with the same number of rows and rows of the same
    lengths. *)
Definition same_shape {A B : Type} (t : list (list A)) (t' : list (list B))
  : Prop :=
  Forall2 (fun row row' => length row' = length row) t t'.

(** A computation that neither reads nor advances the generator. *)
Definition stateless {A : Type} (c : M rng A) : Prop :=
  exists r, forall g, c g = (r, g).

(** What [prepare_sampling_params] makes of one coerced sequence: a sequence
    of one entry is repeated [batch_size] times when the common length is 1,
    any other sequence is taken as it is. *)
Definition broadcast (batch_size : nat) (common_length : nat) (d : list R)
  : list R :=
  if Nat.eqb common_length 1 then repeat (hd 0 d) batch_size else d.


(** The generator after [n] more draws. *)
Definition advance (g : rng) (n : nat) : rng :=
  {| stream := stream g; cursor := (cursor g + n)%nat |}.

(** Position [i] of [row] holds a largest value of the row. *)
Definition holds_maximum (row : list R) (i : nat) : Prop :=
  (i < length row)%nat
  /\ forall j, (j < length row)%nat -> nth j row 0 <= nth i row 0.

(** The sum of the first [n] entries of [row], and the cumulative vector of
    [row]: entry j is the sum of the entries at positions 0 to j. *)
Fixpoint prefix_sum (row : list R) (n : nat) {struct n} : R :=
  match n, row with
  | S n', x :: t => x + prefix_sum t n'
  | _, _ => 0
  end.

Definition cumulative (row : list R) : list R :=
  map (fun j => prefix_sum row (S j)) (seq 0 (length row)).


(* ================================================================= *)
(** ** Booleans and comparisons *)

Lemma Rleb_true (x y : R) : Rleb x y = true <-> x <= y.
Proof. unfold Rleb. destruct (Rle_dec x y); split; auto; discriminate. Qed.

Lemma Rleb_false (x y : R) : Rleb x y = false <-> y < x.
Proof.
  unfold Rleb. destruct (Rle_dec x y); split; intros; try discriminate; lra.
Qed.

Lemma Rltb_true (x y : R) : Rltb x y = true <-> x < y.
Proof. unfold Rltb. destruct (Rlt_dec x y); split; auto; discriminate. Qed.

Lemma Rltb_false (x y : R) : Rltb x y = false <-> y <= x.
Proof.
  unfold Rltb. destruct (Rlt_dec x y); split; intros; try discriminate; lra.
Qed.

Lemma Rgeb_true (x y : R) : Rgeb x y = true <-> y <= x.
Proof. apply Rleb_true. Qed.

Lemma Rgeb_false (x y : R) : Rgeb x y = false <-> x < y.
Proof. apply Rleb_false. Qed.

Lemma Rgtb_true (x y : R) : Rgtb x y = true <-> y < x.
Proof. apply Rltb_true. Qed.

Lemma Rgtb_false (x y : R) : Rgtb x y = false <-> x <= y.
Proof. apply Rltb_false. Qed.

Lemma Rneb_true (x y : R) : Rneb x y = true <-> x <> y.
Proof.
  unfold Rneb. destruct (Req_dec_T x y); split; intros; auto;
    try discriminate; contradiction.
Qed.

Lemma Rneb_false (x y : R) : Rneb x y = false <-> x = y.
Proof.
  unfold Rneb. destruct (Req_dec_T x y); split; intros; auto;
    try discriminate; contradiction.
Qed.

(** Decides the comparisons between numerals that appear in a goal. *)
Ltac Rcompare :=
  repeat match goal with
    | |- context [Rleb ?x ?y] =>
        first [ replace (Rleb x y) with true by (symmetry; apply Rleb_true; lra)
              | replace (Rleb x y) with false by (symmetry; apply Rleb_false; lra) ]
    | |- context [Rltb ?x ?y] =>
        first [ replace (Rltb x y) with true by (symmetry; apply Rltb_true; lra)
              | replace (Rltb x y) with false by (symmetry; apply Rltb_false; lra) ]
    | |- context [Rgeb ?x ?y] =>
        first [ replace (Rgeb x y) with true by (symmetry; apply Rgeb_true; lra)
              | replace (Rgeb x y) with false by (symmetry; apply Rgeb_false; lra) ]
    | |- context [Rgtb ?x ?y] =>
        first [ replace (Rgtb x y) with true by (symmetry; apply Rgtb_true; lra)
              | replace (Rgtb x y) with false by (symmetry; apply Rgtb_false; lra) ]
    | |- context [Rneb ?x ?y] =>
        first [ replace (Rneb x y) with true by (symmetry; apply Rneb_true; lra)
              | replace (Rneb x y) with false by (symmetry; apply Rneb_false; lra) ]
    end.

(* ================================================================= *)
(** ** [prepare_sampling_params] *)

Lemma extends_refl (h : heap) : extends h h.
Proof. exists []. now rewrite app_nil_r. Qed.

Lemma extends_trans (h1 h2 h3 : heap) :
  extends h1 h2 -> extends h2 h3 -> extends h1 h3.
Proof.
  intros [n1 ->] [n2 ->]. exists (n1 ++ n2). now rewrite app_assoc.
Qed.

Lemma extends_snoc (h : heap) (o : pyobj) : extends h (h ++ [o]).
Proof. now exists [o]. Qed.

Lemma extends_lookup (h h' : heap) (a : nat) (o : pyobj) :
  extends h h' -> nth_error h a = Some o -> nth_error h' a = Some o.
Proof.
  intros [new ->] H. rewrite nth_error_app1; auto.
  apply nth_error_Some. congruence.
Qed.

Lemma extends_coerced (h h' : heap) (val : pyval) (d : list R) :
  extends h h' -> coerced h val = Some d -> coerced h' val = Some d.
Proof.
  intros E. destruct val as [x | a]; simpl; auto.
  destruct (nth_error h a) as [o |] eqn:Ha; try discriminate.
  rewrite (extends_lookup _ _ _ _ E Ha). auto.
Qed.

Lemma lookup_fresh (h : heap) (o : pyobj) :
  nth_error (h ++ [o]) (length h) = Some o.
Proof. rewrite nth_error_app2, Nat.sub_diag; auto. Qed.

(** [prepare_tensor] returns a reference to a tensor that holds the coerced
    sequence, and only allocates. *)
Lemma prepare_tensor_run (h : heap) (val : pyval) (d : list R) :
  coerced h val = Some d ->
  exists a h', prepare_tensor val h = (Ok (Ref a), h')
               /\ extends h h'
               /\ nth_error h' a = Some (ObjTensor d).
Proof.
  intros C. destruct val as [x | a]; simpl in C.
  - injection C as <-.
    exists (S (length h)), ((h ++ [ObjList [x]]) ++ [ObjTensor [x]]).
    cbv [prepare_tensor bind is_tensor isinstance_list singleton_list
           torch_tensor deref alloc ret negb].
    rewrite lookup_fresh. rewrite length_app, Nat.add_1_r.
    split; [reflexivity | split].
    + eapply extends_trans; apply extends_snoc.
    + replace (S (length h)) with (length (h ++ [ObjList [x]]))
        by (rewrite length_app; simpl; lia).
      apply lookup_fresh.
  - destruct (nth_error h a) as [[items | data] |] eqn:Ha; try discriminate;
      injection C as <-.
    + exists (length h), (h ++ [ObjTensor items]).
      cbv [prepare_tensor bind is_tensor isinstance_list singleton_list
             torch_tensor deref alloc ret negb].
      repeat (rewrite Ha; cbv beta iota).
      split; [reflexivity | split; [apply extends_snoc | apply lookup_fresh]].
    + exists a, h.
      split; [| split; [apply extends_refl | exact Ha]].
      cbv [prepare_tensor bind is_tensor ret negb]. now rewrite Ha.
Qed.

Lemma bind_ok {S A B : Type} (c : M S A) (k : A -> M S B) (s s' : S) (a : A) :
  c s = (Ok a, s') -> bind c k s = k a s'.
Proof. intros H. unfold bind. now rewrite H. Qed.

Lemma bind_raise {S A B : Type} (c : M S A) (k : A -> M S B) (s s' : S)
    (e : exception) :
  c s = (Raise e, s') -> bind c k s = (Raise e, s').
Proof. intros H. unfold bind. now rewrite H. Qed.

Lemma tensor_data_run (h : heap) (a : nat) (d : list R) :
  nth_error h a = Some (ObjTensor d) -> tensor_data (Ref a) h = (Ok d, h).
Proof. intros H. cbv [tensor_data bind deref ret]. now rewrite H. Qed.

Lemma shape0_run (h : heap) (a : nat) (d : list R) :
  nth_error h a = Some (ObjTensor d) -> shape0 (Ref a) h = (Ok (length d), h).
Proof.
  intros H. unfold shape0. now rewrite (bind_ok _ _ _ _ _ (tensor_data_run _ _ _ H)).
Qed.

Lemma broadcast_to_run (h : heap) (a : nat) (x : R) (batch_size : nat) :
  nth_error h a = Some (ObjTensor [x]) ->
  broadcast_to (Ref a) batch_size h
  = (Ok (Ref (length h)), h ++ [ObjTensor (repeat x batch_size)]).
Proof.
  intros H. unfold broadcast_to.
  now rewrite (bind_ok _ _ _ _ _ (tensor_data_run _ _ _ H)).
Qed.

Lemma torch_stack_run (h : heap) (a b c : nat) (da db dc : list R) :
  nth_error h a = Some (ObjTensor da) ->
  nth_error h b = Some (ObjTensor db) ->
  nth_error h c = Some (ObjTensor dc) ->
  length da = length db -> length db = length dc ->
  torch_stack (Ref a) (Ref b) (Ref c) h = (Ok (stack3 da db dc), h).
Proof.
  intros Ha Hb Hc E1 E2. unfold torch_stack.
  rewrite (bind_ok _ _ _ _ _ (tensor_data_run _ _ _ Ha)).
  rewrite (bind_ok _ _ _ _ _ (tensor_data_run _ _ _ Hb)).
  rewrite (bind_ok _ _ _ _ _ (tensor_data_run _ _ _ Hc)).
  rewrite E1, E2, !Nat.eqb_refl. reflexivity.
Qed.

Lemma stack3_repeat (x y z : R) (n : nat) :
  stack3 (repeat x n) (repeat y n) (repeat z n) = repeat [x; y; z] n.
Proof. induction n; simpl; congruence. Qed.

Lemma stack3_length (a b c : list R) :
  length a = length b -> length b = length c ->
  length (stack3 a b c) = length a.
Proof.
  revert b c. induction a as [| x a IH]; intros [| y b] [| z c]; simpl;
    try discriminate; auto.
Qed.

Lemma stack3_rows (a b c : list R) :
  Forall (fun row => length row = 3%nat) (stack3 a b c).
Proof.
  revert b c. induction a as [| x a IH]; intros [| y b] [| z c]; simpl;
    constructor; auto.
Qed.

(** The rows [prepare_sampling_params] stacks when the three lengths agree. *)
Lemma length_one (d : list R) :
  length d = 1%nat -> d = [hd 0 d].
Proof. destruct d as [| x [| y d]]; simpl; intros; try discriminate; auto. Qed.

(** One run of [prepare_sampling_params], in full: the heap only grows, the
    assertion decides between the exception and the stacked rows. *)
Lemma prepare_sampling_params_run (batch_size : nat) (top_k top_p temperature
    : pyval) (h : heap) (dk dp dt : list R) :
  coerced h top_k = Some dk ->
  coerced h top_p = Some dp ->
  coerced h temperature = Some dt ->
  exists h',
    extends h h'
    /\ prepare_sampling_params batch_size top_k top_p temperature h
       = (if Nat.eqb (length dk) (length dp) && Nat.eqb (length dp) (length dt)
          then Ok (if Nat.eqb (length dk) 1
                   then repeat [hd 0 dk; hd 0 dp; hd 0 dt] batch_size
                   else stack3 dk dp dt)
          else Raise (AssertionError
                        (ShapesDontMatch (length dk) (length dp) (length dt))),
          h').
Proof.
  intros Ck Cp Ct.
  destruct (prepare_tensor_run h top_k dk Ck) as (ak & h1 & R1 & E1 & L1).
  pose proof (extends_coerced _ _ _ _ E1 Cp) as Cp1.
  destruct (prepare_tensor_run h1 top_p dp Cp1) as (ap & h2 & R2 & E2 & L2).
  pose proof (extends_coerced _ _ _ _ (extends_trans _ _ _ E1 E2) Ct) as Ct2.
  destruct (prepare_tensor_run h2 temperature dt Ct2)
    as (at' & h3 & R3 & E3 & L3).
  assert (E03 : extends h h3) by eauto using extends_trans.
  assert (L1' : nth_error h3 ak = Some (ObjTensor dk))
    by eauto using extends_lookup, extends_trans.
  assert (L2' : nth_error h3 ap = Some (ObjTensor dp))
    by eauto using extends_lookup.
  unfold prepare_sampling_params.
  rewrite (bind_ok _ _ _ _ _ R1), (bind_ok _ _ _ _ _ R2),
    (bind_ok _ _ _ _ _ R3).
  rewrite (bind_ok _ _ _ _ _ (shape0_run _ _ _ L1')),
    (bind_ok _ _ _ _ _ (shape0_run _ _ _ L2')),
    (bind_ok _ _ _ _ _ (shape0_run _ _ _ L3)).
  destruct (Nat.eqb (length dk) (length dp) && Nat.eqb (length dp) (length dt))
    eqn:Eq.
  2: { exists h3. split; auto. }
  apply andb_true_iff in Eq as [Ekp Ept].
  apply Nat.eqb_eq in Ekp, Ept.
  destruct (Nat.eqb (length dk) 1) eqn:One.
  - apply Nat.eqb_eq in One.
    assert (Hk : dk = [hd 0 dk]) by now apply length_one.
    assert (Hp : dp = [hd 0 dp]) by (apply length_one; congruence).
    assert (Ht : dt = [hd 0 dt]) by (apply length_one; congruence).
    set (bk := ObjTensor (repeat (hd 0 dk) batch_size)).
    set (bp := ObjTensor (repeat (hd 0 dp) batch_size)).
    set (bt := ObjTensor (repeat (hd 0 dt) batch_size)).
    exists (((h3 ++ [bk]) ++ [bp]) ++ [bt]). split.
    { eapply extends_trans; [exact E03 |].
      eapply extends_trans; [apply extends_snoc |].
      eapply extends_trans; apply extends_snoc. }
    rewrite Hk in L1'. rewrite Hp in L2'. rewrite Ht in L3.
    assert (X1 : extends h3 (h3 ++ [bk])) by apply extends_snoc.
    assert (X2 : extends (h3 ++ [bk]) ((h3 ++ [bk]) ++ [bp]))
      by apply extends_snoc.
    assert (X3 : extends ((h3 ++ [bk]) ++ [bp]) (((h3 ++ [bk]) ++ [bp]) ++ [bt]))
      by apply extends_snoc.
    erewrite bind_ok.
    2: { erewrite bind_ok by (apply broadcast_to_run; exact L1').
         erewrite bind_ok
           by (apply broadcast_to_run; exact (extends_lookup _ _ _ _ X1 L2')).
         erewrite bind_ok
           by (apply broadcast_to_run;
               exact (extends_lookup _ _ _ _ (extends_trans _ _ _ X1 X2) L3)).
         reflexivity. }
    cbv beta iota.
    erewrite torch_stack_run.
    + now rewrite stack3_repeat.
    + apply (extends_lookup _ _ _ _ (extends_trans _ _ _ X2 X3)).
      apply lookup_fresh.
    + apply (extends_lookup _ _ _ _ X3). apply lookup_fresh.
    + apply lookup_fresh.
    + now rewrite !repeat_length.
    + now rewrite !repeat_length.
  - exists h3. split; auto.
    erewrite bind_ok by reflexivity. cbv beta iota.
    now apply torch_stack_run.
Qed.

(** C2 (as amended).  For arguments that coerce to the sequences [dk], [dp]
    and [dt], [prepare_sampling_params] raises if and only if the three
    lengths are not all equal, and the exception is then the assertion error
    that names the three lengths.  When they are equal it returns normally:
    [batch_size] rows if the common length is 1, and as many rows as the
    common length otherwise, whatever [batch_size] is; every row has three
    columns. *)
Theorem prepare_sampling_params_raises_iff_lengths_differ
    (batch_size : nat) (top_k top_p temperature : pyval) (h : heap)
    (dk dp dt : list R) :
  coerced h top_k = Some dk ->
  coerced h top_p = Some dp ->
  coerced h temperature = Some dt ->
  let outcome :=
    fst (prepare_sampling_params batch_size top_k top_p temperature h) in
  let lengths_agree := length dk = length dp /\ length dp = length dt in
  ((exists e, outcome = Raise e) <-> ~ lengths_agree)
  /\ (~ lengths_agree ->
      outcome = Raise (AssertionError
                         (ShapesDontMatch (length dk) (length dp) (length dt))))
  /\ (lengths_agree ->
      exists rows,
        outcome = Ok rows
        /\ length rows = (if Nat.eqb (length dk) 1 then batch_size
                          else length dk)
        /\ Forall (fun row => length row = 3%nat) rows).
Proof.
  intros Ck Cp Ct outcome lengths_agree.
  destruct (prepare_sampling_params_run batch_size _ _ _ _ _ _ _ Ck Cp Ct)
    as (h' & _ & Run).
  subst outcome. rewrite Run. cbn [fst]. clear Run.
  destruct (Nat.eqb (length dk) (length dp) && Nat.eqb (length dp) (length dt))
    eqn:Eq.
  - apply andb_true_iff in Eq as [Ekp Ept]. apply Nat.eqb_eq in Ekp, Ept.
    assert (Agree : lengths_agree) by (split; assumption).
    split; [| split].
    + split; [intros [e He]; discriminate | intros N; contradiction].
    + intros N; contradiction.
    + intros _. eexists. split; [reflexivity |].
      destruct (Nat.eqb (length dk) 1).
      * split; [apply repeat_length |].
        apply Forall_forall. intros row In.
        apply repeat_spec in In. now subst row.
      * split; [now apply stack3_length | apply stack3_rows].
  - assert (Differ : ~ lengths_agree).
    { intros [Ekp Ept]. apply Nat.eqb_eq in Ekp, Ept.
      rewrite Ekp, Ept in Eq. discriminate. }
    split; [| split].
    + split; [auto | intros _; eexists; reflexivity].
    + auto.
    + intros A; contradiction.
Qed.

Lemma prepare_sampling_params_raises_iff_lengths_differ_witness :
  ((exists e,
       fst (prepare_sampling_params 2 (Ref 0) (Scalar 1) (Ref 1)
              [ObjList [2; 3]; ObjTensor [1; 1]]) = Raise e)
   <-> ~ (2 = 1 /\ 1 = 2)%nat)
  /\ (~ (2 = 1 /\ 1 = 2)%nat ->
      fst (prepare_sampling_params 2 (Ref 0) (Scalar 1) (Ref 1)
             [ObjList [2; 3]; ObjTensor [1; 1]])
      = Raise (AssertionError (ShapesDontMatch 2 1 2)))
  /\ ((2 = 1 /\ 1 = 2)%nat ->
      exists rows,
        fst (prepare_sampling_params 2 (Ref 0) (Scalar 1) (Ref 1)
               [ObjList [2; 3]; ObjTensor [1; 1]]) = Ok rows
        /\ length rows = 2%nat
        /\ Forall (fun row => length row = 3%nat) rows).
Proof.
  exact (prepare_sampling_params_raises_iff_lengths_differ
           2 (Ref 0) (Scalar 1) (Ref 1) [ObjList [2; 3]; ObjTensor [1; 1]]
           [2; 3] [1] [1; 1] eq_refl eq_refl eq_refl).
Defined.

(** C2 (as stated) fails: with [batch_size = 4] and three lists of length 2,
    the common length is neither 1 nor [batch_size], and the call returns a
    tensor of two rows instead of raising. *)
Lemma prepare_sampling_params_length_two_batch_four :
  coerced [ObjList [2; 3]; ObjList [1; 1]; ObjList [1; 1]] (Ref 0)
  = Some [2; 3]
  /\ coerced [ObjList [2; 3]; ObjList [1; 1]; ObjList [1; 1]] (Ref 1)
     = Some [1; 1]
  /\ coerced [ObjList [2; 3]; ObjList [1; 1]; ObjList [1; 1]] (Ref 2)
     = Some [1; 1]
  /\ (length [2; 3] <> 1 /\ length [2; 3] <> 4)%nat
  /\ fst (prepare_sampling_params 4 (Ref 0) (Ref 1) (Ref 2)
            [ObjList [2; 3]; ObjList [1; 1]; ObjList [1; 1]])
     = Ok [[2; 1; 1]; [3; 1; 1]].
Proof.
  repeat split; try reflexivity; simpl; lia.
Qed.

(** C8.  For singleton arguments (each coerces to a sequence of one entry)
    and every [batch_size], [prepare_sampling_params] returns the tensor of
    [batch_size] rows, every row being [top_k; top_p; temperature] in that
    order; the heap after the call is the heap before it with new objects
    appended, so the arguments (and every other object that existed) are
    unchanged. *)
Theorem prepare_sampling_params_singleton
    (batch_size : nat) (top_k top_p temperature : pyval) (h : heap)
    (k p t : R) :
  coerced h top_k = Some [k] ->
  coerced h top_p = Some [p] ->
  coerced h temperature = Some [t] ->
  exists rows h',
    prepare_sampling_params batch_size top_k top_p temperature h
    = (Ok rows, h')
    /\ length rows = batch_size
    /\ Forall (fun row => row = [k; p; t]) rows
    /\ extends h h'
    /\ coerced h' top_k = Some [k]
    /\ coerced h' top_p = Some [p]
    /\ coerced h' temperature = Some [t].
Proof.
  intros Ck Cp Ct.
  destruct (prepare_sampling_params_run batch_size _ _ _ _ _ _ _ Ck Cp Ct)
    as (h' & Ext & Run).
  simpl in Run.
  exists (repeat [k; p; t] batch_size), h'.
  split; [exact Run |].
  split; [apply repeat_length |].
  split.
  { apply Forall_forall. intros row In. now apply repeat_spec in In. }
  split; [exact Ext |].
  split; [| split]; eapply extends_coerced; eauto.
Qed.

Lemma prepare_sampling_params_singleton_witness :
  exists rows h',
    prepare_sampling_params 2 (Scalar 5) (Ref 0) (Ref 1)
      [ObjList [1]; ObjTensor [2]]
    = (Ok rows, h')
    /\ length rows = 2%nat
    /\ Forall (fun row => row = [5; 1; 2]) rows
    /\ extends [ObjList [1]; ObjTensor [2]] h'
    /\ coerced h' (Scalar 5) = Some [5]
    /\ coerced h' (Ref 0) = Some [1]
    /\ coerced h' (Ref 1) = Some [2].
Proof.
  exact (prepare_sampling_params_singleton
           2 (Scalar 5) (Ref 0) (Ref 1) [ObjList [1]; ObjTensor [2]]
           5 1 2 eq_refl eq_refl eq_refl).
Defined.

(* ================================================================= *)
(** ** The tensor operations *)

Lemma mapR_Forall2 {A B : Type} (f : A -> result B) (P : A -> B -> Prop)
    (l : list A) :
  (forall x, In x l -> exists y, f x = Ok y /\ P x y) ->
  exists ys, mapR f l = Ok ys /\ Forall2 P l ys.
Proof.
  induction l as [| x l IH]; intros H; simpl.
  - exists []. split; [reflexivity | constructor].
  - destruct (H x (or_introl eq_refl)) as (y & Fy & Py).
    destruct IH as (ys & Fys & Pys); [intros; apply H; now right |].
    exists (y :: ys). rewrite Fy, Fys. split; [reflexivity | now constructor].
Qed.

Lemma mapR_ok_Forall2 {A B : Type} (f : A -> result B) (l : list A)
    (ys : list B) :
  mapR f l = Ok ys -> Forall2 (fun x y => f x = Ok y) l ys.
Proof.
  revert ys. induction l as [| x l IH]; simpl; intros ys H.
  - injection H as <-. constructor.
  - destruct (f x) as [y | e] eqn:Fx; simpl in H; try discriminate.
    destruct (mapR f l) as [ys' | e] eqn:Fl; simpl in H; try discriminate.
    injection H as <-. constructor; auto.
Qed.

Lemma argmax_from_spec (row pre : list R) (best_i : nat) (best : R) :
  argmax_at pre best_i best ->
  is_argmax (pre ++ row) (torch.argmax_from best_i best (length pre) row).
Proof.
  revert pre best_i best.
  induction row as [| x row IH]; intros pre best_i best Inv; simpl.
  - rewrite app_nil_r. now exists best.
  - destruct Inv as (At & Max & First).
    assert (Lt : (best_i < length pre)%nat)
      by (apply nth_error_Some; congruence).
    replace (pre ++ x :: row) with ((pre ++ [x]) ++ row)
      by (now rewrite <- app_assoc).
    replace (S (length pre)) with (length (pre ++ [x]))
      by (rewrite length_app; simpl; lia).
    destruct (Rgtb x best) eqn:G.
    + apply Rgtb_true in G.
      replace (length pre) with (length pre + 0)%nat at 1 by lia.
      rewrite Nat.add_0_r.
      apply IH. split; [| split].
      * rewrite nth_error_app2, Nat.sub_diag; auto.
      * intros j y Hj.
        destruct (Nat.lt_ge_cases j (length pre)) as [L | L].
        -- rewrite nth_error_app1 in Hj by assumption.
           apply Max in Hj. lra.
        -- rewrite nth_error_app2 in Hj by assumption.
           destruct (j - length pre)%nat as [| n]; simpl in Hj.
           ++ injection Hj as <-. lra.
           ++ destruct n; discriminate.
      * intros j y L Hj. rewrite nth_error_app1 in Hj by assumption.
        apply Max in Hj. lra.
    + apply Rgtb_false in G.
      apply IH. split; [| split].
      * rewrite nth_error_app1; assumption.
      * intros j y Hj.
        destruct (Nat.lt_ge_cases j (length pre)) as [L | L].
        -- rewrite nth_error_app1 in Hj by assumption. eapply Max; eauto.
        -- rewrite nth_error_app2 in Hj by assumption.
           destruct (j - length pre)%nat as [| n]; simpl in Hj.
           ++ injection Hj as <-. lra.
           ++ destruct n; discriminate.
      * intros j y L Hj. rewrite nth_error_app1 in Hj by lia.
        eapply First; eauto.
Qed.

(** [torch.argmax] on a row that is not empty: the first arg-max. *)
Lemma argmax_row_spec (row : list R) :
  row <> [] -> exists i, torch.argmax_row row = Ok i /\ is_argmax row i.
Proof.
  destruct row as [| x row]; [congruence | intros _].
  exists (torch.argmax_from 0 x 1 row). split; [reflexivity |].
  apply (argmax_from_spec row [x] 0%nat x).
  split; [reflexivity | split].
  - intros [| [| j]] y Hj; simpl in Hj; try discriminate.
    injection Hj as <-. lra.
  - intros j y L. lia.
Qed.

Lemma argmax_spec (t : list (list R)) :
  Forall (fun row => row <> []) t ->
  exists tokens, torch.argmax t = Ok tokens /\ Forall2 is_argmax t tokens.
Proof.
  intros NE. apply mapR_Forall2. intros row In.
  apply argmax_row_spec. rewrite Forall_forall in NE. now apply NE.
Qed.

(* ================================================================= *)
(** ** The sampling parameters as [forward] reads them *)

Lemma column_0_stack3 (a b c : list R) :
  length a = length b -> length b = length c ->
  column 0 (stack3 a b c) = Ok a.
Proof.
  unfold column. revert b c.
  induction a as [| x a IH]; intros [| y b] [| z c]; try discriminate; auto.
  intros E1 E2. injection E1 as E1. injection E2 as E2.
  cbn [stack3 mapR]. rewrite (IH b c E1 E2). reflexivity.
Qed.

Lemma column_1_stack3 (a b c : list R) :
  length a = length b -> length b = length c ->
  column 1 (stack3 a b c) = Ok b.
Proof.
  unfold column. revert b c.
  induction a as [| x a IH]; intros [| y b] [| z c]; try discriminate; auto.
  intros E1 E2. injection E1 as E1. injection E2 as E2.
  cbn [stack3 mapR]. rewrite (IH b c E1 E2). reflexivity.
Qed.

Lemma column_2_stack3 (a b c : list R) :
  length a = length b -> length b = length c ->
  column 2 (stack3 a b c) = Ok c.
Proof.
  unfold column. revert b c.
  induction a as [| x a IH]; intros [| y b] [| z c]; try discriminate; auto.
  intros E1 E2. injection E1 as E1. injection E2 as E2.
  cbn [stack3 mapR]. rewrite (IH b c E1 E2). reflexivity.
Qed.

(** Every tensor of shape (B, 3) is the stack of its three columns. *)
Lemma params_as_stack3 (sampling_params : list (list R)) :
  Forall (fun row => length row = 3%nat) sampling_params ->
  exists top_k top_p temperature,
    sampling_params = stack3 top_k top_p temperature
    /\ length top_k = length sampling_params
    /\ length top_p = length sampling_params
    /\ length temperature = length sampling_params.
Proof.
  induction 1 as [| row t E _ (ks & ps & ts & -> & Lk & Lp & Lt)].
  - exists [], [], []. auto.
  - destruct row as [| k [| p [| x [| y row]]]]; try discriminate.
    exists (k :: ks), (p :: ps), (x :: ts). simpl.
    rewrite Lk, Lp, Lt. auto.
Qed.

Lemma reshape_ok (n : nat) (col : list R) :
  length col = n -> reshape n col = Ok col.
Proof. intros <-. unfold reshape. now rewrite Nat.eqb_refl. Qed.

(** Runs the three column extractions at the head of [forward]. *)
Ltac forward_prologue Hk Hp Ht :=
  unfold forward;
  rewrite column_0_stack3, column_1_stack3, column_2_stack3 by congruence;
  cbn [bindR];
  rewrite !reshape_ok by congruence;
  unfold lift at 1 2 3; cbv beta iota delta [bind].

(* ================================================================= *)
(** ** The greedy fast path *)

Lemma all_le_1 (top_k : list R) :
  torch.all (map (fun k => Rleb k 1) top_k) = true
  <-> Forall (fun k => k <= 1) top_k.
Proof.
  unfold torch.all. induction top_k as [| k l IH]; simpl.
  - split; auto.
  - rewrite andb_true_iff, Rleb_true, IH. split.
    + intros [H1 H2]. now constructor.
    + intros H. inversion H. auto.
Qed.

Lemma greedy_iff (self : Sampler) (top_k : list R) :
  greedy self top_k = true
  <-> do_sample self = false
      \/ (dynamic self = false /\ Forall (fun k => k <= 1) top_k).
Proof.
  unfold greedy.
  rewrite orb_true_iff, andb_true_iff, !negb_true_iff, all_le_1. tauto.
Qed.

(** One run of [forward] on the greedy path. *)
Lemma forward_greedy_run (self : Sampler) (token_logits : list (list R))
    (top_k top_p temperature : list R) (return_values : bool) (g : rng) :
  length top_k = length token_logits ->
  length top_p = length token_logits ->
  length temperature = length token_logits ->
  greedy self top_k = true ->
  forward self token_logits (stack3 top_k top_p temperature) return_values g
  = (match torch.argmax token_logits with
     | Ok tokens =>
         Ok (if Config.on_cpu (neuron_config self) then OutTokens tokens
             else if return_values
                  then OutTokensValues tokens (torch.ones (length tokens))
                  else OutTokens tokens)
     | Raise e => Raise e
     end, g).
Proof.
  intros Hk Hp Ht G. forward_prologue Hk Hp Ht. rewrite G.
  unfold nxd_argmax, lift, ret.
  destruct (Config.on_cpu (neuron_config self));
    destruct (torch.argmax token_logits); try reflexivity.
  now destruct return_values.
Qed.


Lemma Sampler_init_a_sampler
    (on_cpu medusa do_sample dynamic deterministic : bool) (global_topk : Z) :
  Sampler_init
    (a_config on_cpu medusa do_sample dynamic deterministic global_topk) None
  = Ok (a_sampler on_cpu medusa do_sample dynamic deterministic global_topk).
Proof. reflexivity. Qed.


(** X17.  On the accelerator the greedy path pairs the arg-max ids with a tensor of
    ones when the values are asked for. *)
Lemma forward_greedy_device_values (self : Sampler)
    (token_logits : list (list R)) (top_k top_p temperature : list R)
    (g : rng) :
  length top_k = length token_logits ->
  length top_p = length token_logits ->
  length temperature = length token_logits ->
  greedy self top_k = true ->
  Config.on_cpu (neuron_config self) = false ->
  Forall (fun row => row <> []) token_logits ->
  exists tokens,
    forward self token_logits (stack3 top_k top_p temperature) true g
    = (Ok (OutTokensValues tokens (repeat 1 (length tokens))), g)
    /\ Forall2 is_argmax token_logits tokens.
Proof.
  intros Hk Hp Ht G Dev NE.
  destruct (argmax_spec token_logits NE) as (tokens & Arg & Max).
  exists tokens. split; [| exact Max].
  rewrite forward_greedy_run by assumption. now rewrite Arg, Dev.
Qed.

(** C3, at the failing input.  On CPU the greedy path returns the bare tensor
    of arg-max ids although the values were asked for
    ([return_values = True]): no probability is paired with the ids. *)
Theorem forward_greedy_on_cpu_drops_values :
  forward (a_sampler true false false false false 0)
    [[1; 3; 2]] (stack3 [1] [1] [1]) true (constant_rng 0)
  = (Ok (OutTokens [1%nat]), constant_rng 0).
Proof.
  rewrite forward_greedy_run by reflexivity.
  cbn [a_sampler neuron_config a_config Config.on_cpu].
  unfold torch.argmax, torch.argmax_row; cbn [mapR torch.argmax_from].
  Rcompare. reflexivity.
Qed.

(* ================================================================= *)
(** ** Sorting and top-k *)

Lemma insert_desc_perm (p : R * nat) (l : list (R * nat)) :
  Permutation (torch.insert_desc p l) (p :: l).
Proof.
  induction l as [| q l IH]; simpl; auto.
  destruct (Rgeb (fst p) (fst q)); auto.
  rewrite IH. apply perm_swap.
Qed.

Lemma sort_row_perm (row : list R) :
  Permutation (torch.sort_row row) (combine row (seq 0 (length row))).
Proof.
  unfold torch.sort_row.
  induction (combine row (seq 0 (length row))) as [| p l IH]; simpl; auto.
  rewrite insert_desc_perm. now constructor.
Qed.

Lemma insert_desc_sorted (p : R * nat) (l : list (R * nat)) :
  StronglySorted (fun a b => fst b <= fst a) l ->
  StronglySorted (fun a b => fst b <= fst a) (torch.insert_desc p l).
Proof.
  induction l as [| q l IH]; intros S; simpl.
  - repeat constructor.
  - inversion S as [| ? ? Sl Fq]; subst.
    destruct (Rgeb (fst p) (fst q)) eqn:G.
    + apply Rgeb_true in G. constructor; auto. constructor; auto.
      eapply Forall_impl; [| exact Fq]. simpl. intros; lra.
    + apply Rgeb_false in G. constructor; auto.
      eapply Permutation_Forall.
      * symmetry. apply insert_desc_perm.
      * constructor; auto. lra.
Qed.

Lemma sort_row_sorted (row : list R) :
  StronglySorted (fun a b => fst b <= fst a) (torch.sort_row row).
Proof.
  unfold torch.sort_row.
  induction (combine row (seq 0 (length row))) as [| p l IH]; simpl.
  - constructor.
  - now apply insert_desc_sorted.
Qed.

Lemma sort_row_length (row : list R) :
  length (torch.sort_row row) = length row.
Proof.
  rewrite (Permutation_length (sort_row_perm row)), length_combine,
    length_seq. apply Nat.min_id.
Qed.

Lemma combine_seq_lookup (row : list R) (start : nat) (v : R) (i : nat) :
  In (v, i) (combine row (seq start (length row))) ->
  (start <= i)%nat /\ nth_error row (i - start) = Some v.
Proof.
  revert start. induction row as [| x row IH]; simpl; intros start H.
  - contradiction.
  - destruct H as [H | H].
    + injection H as <- <-. rewrite Nat.sub_diag. auto.
    + apply IH in H as [L N]. split; [lia |].
      replace (i - start)%nat with (S (i - S start)) by lia. exact N.
Qed.

(** Every pair of the sorted row is a value of the row with its position. *)
Lemma sort_row_lookup (row : list R) (v : R) (i : nat) :
  In (v, i) (torch.sort_row row) -> nth_error row i = Some v.
Proof.
  intros H. apply (Permutation_in _ (sort_row_perm row)) in H.
  apply combine_seq_lookup in H as [_ H]. now rewrite Nat.sub_0_r in H.
Qed.

Lemma sort_row_indices_perm (row : list R) :
  Permutation (map snd (torch.sort_row row)) (seq 0 (length row)).
Proof.
  rewrite (Permutation_map snd (sort_row_perm row)).
  assert (E : forall (l : list R) (m : list nat),
             length l = length m -> map snd (combine l m) = m).
  { induction l as [| x l IH]; intros [| y m]; simpl; try discriminate; auto.
    intros E. f_equal. apply IH. congruence. }
  rewrite E; auto. now rewrite length_seq.
Qed.

Lemma StronglySorted_app_inv {A : Type} (Q : A -> A -> Prop) (l1 l2 : list A) :
  StronglySorted Q (l1 ++ l2) ->
  StronglySorted Q l1 /\ (forall x y, In x l1 -> In y l2 -> Q x y).
Proof.
  induction l1 as [| a l1 IH]; simpl; intros S.
  - split; [constructor | contradiction].
  - inversion S as [| ? ? S' F]; subst. destruct (IH S') as [S1 C].
    split.
    + constructor; auto. apply Forall_app in F. tauto.
    + intros x y [<- | Hx] Hy; auto.
      rewrite Forall_forall in F. apply F. apply in_or_app. now right.
Qed.

Lemma StronglySorted_map {A B : Type} (f : A -> B) (Q : B -> B -> Prop)
    (l : list A) :
  StronglySorted (fun a b => Q (f a) (f b)) l -> StronglySorted Q (map f l).
Proof.
  induction 1 as [| a l S IH F]; simpl; constructor; auto.
  apply Forall_map. exact F.
Qed.

(** The first [k] positions of the sorted row are the top candidates. *)
Lemma sort_row_top_candidates (row : list R) (k : nat) :
  top_candidates row (firstn k (map snd (torch.sort_row row))).
Proof.
  set (l := torch.sort_row row).
  assert (Val : forall p, In p l -> nth_error row (snd p) = Some (fst p)).
  { intros [v i] H. now apply sort_row_lookup. }
  assert (Nth : forall p, In p l -> nth (snd p) row 0 = fst p).
  { intros p H. apply nth_error_nth. now apply Val. }
  assert (ND : NoDup (map snd l)).
  { eapply Permutation_NoDup.
    - symmetry. apply sort_row_indices_perm.
    - apply seq_NoDup. }
  pose proof (sort_row_sorted row) as S. fold l in S.
  rewrite <- (firstn_skipn k l) in S, ND.
  rewrite map_app in ND.
  apply StronglySorted_app_inv in S as [S1 Cross].
  rewrite firstn_map in *.
  split; [| split; [| split]].
  - eapply NoDup_app_remove_r; exact ND.
  - apply Forall_forall. intros i H. apply in_map_iff in H as (p & <- & H).
    apply nth_error_Some. rewrite (Val p); [discriminate |].
    rewrite <- (firstn_skipn k l). apply in_or_app. now left.
  - apply StronglySorted_map.
    clear - S1 Nth.
    assert (In1 : forall p, In p (firstn k l) -> In p l).
    { intros p H. rewrite <- (firstn_skipn k l). apply in_or_app. now left. }
    induction S1 as [| a m S IH F]; constructor.
    + apply IH. intros p H. apply In1. now right.
    + rewrite Forall_forall in *. intros b Hb.
      rewrite (Nth a), (Nth b); auto using in_eq, in_cons.
  - intros i j Hi Hj NotIn.
    apply in_map_iff in Hi as (p & <- & Hp).
    assert (Hj' : In j (map snd l)).
    { eapply Permutation_in.
      - symmetry. apply sort_row_indices_perm.
      - apply in_seq. lia. }
    rewrite <- (firstn_skipn k l), map_app in Hj'.
    apply in_app_or in Hj' as [Hj' | Hj']; [contradiction |].
    apply in_map_iff in Hj' as (q & <- & Hq).
    rewrite (Nth p), (Nth q).
    + now apply Cross.
    + rewrite <- (firstn_skipn k l). apply in_or_app. now right.
    + rewrite <- (firstn_skipn k l). apply in_or_app. now left.
Qed.

(* ================================================================= *)
(** ** The top-k step *)

Lemma map2_length {A B C : Type} (f : A -> B -> C) (a : list A) (b : list B) :
  length a = length b -> length (map2 f a b) = length a.
Proof.
  intros E. unfold map2. rewrite length_map, length_combine, <- E.
  apply Nat.min_id.
Qed.

Lemma map2_Forall2 {A B C : Type} (f : A -> B -> C) (P : A -> C -> Prop)
    (a : list A) (b : list B) :
  length a = length b ->
  (forall x y, In (x, y) (combine a b) -> P x (f x y)) ->
  Forall2 P a (map2 f a b).
Proof.
  unfold map2. revert b.
  induction a as [| x a IH]; intros [| y b] E H; simpl; try discriminate;
    constructor.
  - apply (H x y). now left.
  - apply IH; [simpl in E; congruence |]. intros; apply H. now right.
Qed.

Lemma k_used_le (self : Sampler) (V : nat) :
  (global_topk self <= Z.of_nat V)%Z -> (k_used self V <= V)%nat.
Proof. unfold k_used. destruct (Z.gtb_spec (global_topk self) 0); lia. Qed.

(** The sorted values and their positions, as the top-k step obtains them
    from either primitive. *)
Lemma top_k_masked_run (self : Sampler) (logits : list (list R))
    (top_k : list R) (V : nat) :
  Forall (fun row => length row = V) logits ->
  (global_topk self <= Z.of_nat V)%Z ->
  let k := k_used self V in
  let sorted_logits :=
    map (fun row => firstn k (map fst (torch.sort_row row))) logits in
  let indeces :=
    map (fun row => firstn k (map snd (torch.sort_row row))) logits in
  _top_k_masked self logits top_k
  = Ok (torch.masked_fill sorted_logits
          (torch.greater_equal
             (map (fun row => torch.arange (length row)) sorted_logits) top_k)
          (IGNORED_LOGITS_VALUE self),
        indeces).
Proof.
  intros Rect Le k sorted_logits indeces.
  pose proof (k_used_le self V Le) as KV.
  subst k sorted_logits indeces. unfold _top_k_masked, k_used in *.
  destruct (Z.gtb (global_topk self) 0) eqn:Pos.
  - assert (T : torch.topk logits (Z.to_nat (global_topk self))
                = Ok (map (fun row => firstn (Z.to_nat (global_topk self))
                                        (map fst (torch.sort_row row))) logits,
                      map (fun row => firstn (Z.to_nat (global_topk self))
                                        (map snd (torch.sort_row row))) logits)).
    { unfold torch.topk.
      replace (forallb _ logits) with true; [reflexivity |].
      symmetry. apply forallb_forall. intros row In.
      rewrite Forall_forall in Rect. rewrite (Rect row In).
      now apply Nat.leb_le. }
    unfold nxd_topk.
    destruct (Config.on_cpu (neuron_config self)); rewrite T; reflexivity.
  - assert (F : forall (A : Type) (pick : R * nat -> A),
               map (fun row => map pick (torch.sort_row row)) logits
               = map (fun row => firstn V (map pick (torch.sort_row row)))
                   logits).
    { intros A pick. apply map_ext_in. intros row In.
      rewrite Forall_forall in Rect.
      rewrite firstn_all2; auto.
      rewrite length_map, sort_row_length, (Rect row In). lia. }
    unfold torch.sort. rewrite !F. reflexivity.
Qed.

Lemma top_k_indices_shape (self : Sampler) (logits : list (list R)) (V : nat) :
  Forall (fun row => length row = V) logits ->
  (global_topk self <= Z.of_nat V)%Z ->
  Forall (fun irow => length irow = k_used self V)
    (map (fun row => firstn (k_used self V) (map snd (torch.sort_row row)))
       logits).
Proof.
  intros Rect Le. apply Forall_map.
  eapply Forall_impl; [| exact Rect]. simpl. intros row E.
  rewrite length_firstn, length_map, sort_row_length, E.
  pose proof (k_used_le self V Le). lia.
Qed.

(** A row whose [top_k] is positive keeps its first (largest) sorted value
    through the top-k masking: position 0 is below every positive [top_k]. *)
Lemma top_k_mask_keeps_first (sorted_logits : list (list R)) (top_k : list R)
    (v : R) (i : nat) (row : list R) (k : R) :
  nth_error sorted_logits i = Some row ->
  nth_error top_k i = Some k ->
  0 < k ->
  exists row',
    nth_error
      (torch.masked_fill sorted_logits
         (torch.greater_equal
            (map (fun row => torch.arange (length row)) sorted_logits) top_k)
         v) i = Some row'
    /\ hd_error row' = hd_error row.
Proof.
  revert top_k i.
  induction sorted_logits as [| r t IH]; intros [| k' top_k] [| i] Hr Hk Pos;
    try discriminate.
  - simpl in Hr, Hk. injection Hr as ->. injection Hk as ->.
    unfold torch.masked_fill, torch.greater_equal, torch.arange, map2.
    cbn [map combine fst snd nth_error]. eexists. split; [reflexivity |].
    destruct row as [| x row]; [reflexivity |].
    cbn [length seq map combine fst snd INR hd_error].
    replace (Rgeb 0 k) with false; [reflexivity |].
    symmetry. apply Rgeb_false. exact Pos.
  - simpl in Hr, Hk. destruct (IH top_k i Hr Hk Pos) as (row' & N & H).
    exists row'. split; [| exact H]. exact N.
Qed.

(* ================================================================= *)
(** ** The speculative branch *)

Lemma forward_medusa_run (self : Sampler) (token_logits : list (list R))
    (top_k top_p temperature : list R) (return_values : bool) (g : rng) :
  length top_k = length token_logits ->
  length top_p = length token_logits ->
  length temperature = length token_logits ->
  greedy self top_k = false ->
  is_medusa self = true ->
  forward self token_logits (stack3 top_k top_p temperature) return_values g
  = (match _top_k_masked self token_logits top_k with
     | Ok (_, top_k_logits_indices) => Ok (OutIndices top_k_logits_indices)
     | Raise e => Raise e
     end, g).
Proof.
  intros Hk Hp Ht G Med. forward_prologue Hk Hp Ht. rewrite G.
  unfold lift, ret.
  destruct (_top_k_masked self token_logits top_k) as [[vals idx] | e];
    [| reflexivity].
  now rewrite Med.
Qed.

(** C9.  Off the greedy path and with the speculative flag set, [forward]
    returns the 2-D tensor of sorted candidate positions that the top-k step
    produced: one row per batch row, [k_used] positions per row, each row
    listing the top candidates of its logits in descending order.  The result
    does not depend on the [top_p] and [temperature] columns, and the state of
    the random number generator is handed back untouched. *)
Theorem forward_speculative_returns_candidates (self : Sampler)
    (token_logits : list (list R)) (top_k top_p temperature : list R)
    (return_values : bool) (g : rng) (V : nat) :
  length top_k = length token_logits ->
  length top_p = length token_logits ->
  length temperature = length token_logits ->
  Forall (fun row => length row = V) token_logits ->
  (global_topk self <= Z.of_nat V)%Z ->
  greedy self top_k = false ->
  is_medusa self = true ->
  exists values indices,
    _top_k_masked self token_logits top_k = Ok (values, indices)
    /\ forward self token_logits (stack3 top_k top_p temperature)
         return_values g = (Ok (OutIndices indices), g)
    /\ length indices = length token_logits
    /\ Forall (fun irow => length irow = k_used self V) indices
    /\ Forall2 top_candidates token_logits indices
    /\ forall top_p' temperature' g',
        length top_p' = length token_logits ->
        length temperature' = length token_logits ->
        forward self token_logits (stack3 top_k top_p' temperature')
          return_values g' = (Ok (OutIndices indices), g').
Proof.
  intros Hk Hp Ht Rect Le G Med.
  pose proof (top_k_masked_run self token_logits top_k V Rect Le) as Run.
  cbv zeta in Run.
  eexists. eexists. split; [exact Run |].
  split; [| split; [| split; [| split]]].
  - rewrite forward_medusa_run by assumption. now rewrite Run.
  - apply length_map.
  - now apply top_k_indices_shape.
  - clear. induction token_logits as [| row t IH]; simpl; constructor; auto.
    apply sort_row_top_candidates.
  - intros top_p' temperature' g' Hp' Ht'.
    rewrite forward_medusa_run by assumption. now rewrite Run.
Qed.

Lemma forward_speculative_returns_candidates_witness :
  exists values indices,
    _top_k_masked (a_sampler true true true true false 0) [[1; 3; 2]] [2]
    = Ok (values, indices)
    /\ forward (a_sampler true true true true false 0) [[1; 3; 2]]
         (stack3 [2] [1] [1]) false (constant_rng 0)
       = (Ok (OutIndices indices), constant_rng 0)
    /\ length indices = 1%nat
    /\ Forall (fun irow =>
                 length irow = k_used (a_sampler true true true true false 0) 3)
         indices
    /\ Forall2 top_candidates [[1; 3; 2]] indices
    /\ forall top_p' temperature' g',
        length top_p' = 1%nat ->
        length temperature' = 1%nat ->
        forward (a_sampler true true true true false 0) [[1; 3; 2]]
          (stack3 [2] top_p' temperature') false g'
        = (Ok (OutIndices indices), g').
Proof.
  apply (forward_speculative_returns_candidates
           (a_sampler true true true true false 0) [[1; 3; 2]] [2] [1] [1]
           false (constant_rng 0) 3 eq_refl eq_refl eq_refl).
  - repeat constructor.
  - simpl. lia.
  - reflexivity.
  - reflexivity.
Defined.

(* ================================================================= *)
(** ** The top-p step *)

Lemma softmax_row_length (row : list R) :
  length (torch.softmax_row row) = length row.
Proof. unfold torch.softmax_row. now rewrite !length_map. Qed.

Lemma cumsum_from_length (acc : R) (row : list R) :
  length (torch.cumsum_from acc row) = length row.
Proof. revert acc. induction row; simpl; auto. Qed.

Lemma cumsum_row_length (row : list R) :
  length (torch.cumsum_row row) = length row.
Proof. apply cumsum_from_length. Qed.

Lemma fold_left_Rmin_le (l : list R) (x : R) :
  fold_left Rmin l x <= x /\ Forall (fun y => fold_left Rmin l x <= y) l.
Proof.
  revert x. induction l as [| y l IH]; intros x; simpl.
  - split; [lra | constructor].
  - destruct (IH (Rmin x y)) as [Le All].
    pose proof (Rmin_l x y). pose proof (Rmin_r x y).
    split; [lra |]. constructor; [lra | exact All].
Qed.

Lemma fold_left_Rmin_In (l : list R) (x : R) :
  In (fold_left Rmin l x) (x :: l).
Proof.
  revert x. induction l as [| y l IH]; intros x; simpl.
  - now left.
  - destruct (IH (Rmin x y)) as [E | H].
    + rewrite <- E. unfold Rmin. destruct (Rle_dec x y); auto.
    + auto.
Qed.

(** [torch.min] of a tensor that has an entry: an entry of the tensor that
    no entry of any row is below. *)
Lemma min_spec (t : list (list R)) :
  concat t <> [] ->
  exists m, torch.min t = Ok m
            /\ (forall row c, In row t -> In c row -> m <= c)
            /\ (exists row, In row t /\ In m row).
Proof.
  intros NE. unfold torch.min.
  destruct (concat t) as [| x l] eqn:C; [congruence |].
  exists (fold_left Rmin l x). split; [reflexivity |].
  destruct (fold_left_Rmin_le l x) as [Le All]. split.
  - intros row c Hrow Hc.
    assert (Hin : In c (concat t)) by (apply in_concat; eauto).
    rewrite C in Hin. destruct Hin as [<- | Hin]; auto.
    rewrite Forall_forall in All. now apply All.
  - pose proof (fold_left_Rmin_In l x) as Hin. rewrite <- C in Hin.
    apply in_concat in Hin as (row & Hrow & Hm). eauto.
Qed.

Lemma top_p_mask_head (probs_cumsum : list (list R)) (top_p : list R) :
  Forall (fun mrow => mrow = [] \/ hd_error mrow = Some false)
    (top_p_mask_of probs_cumsum top_p).
Proof.
  unfold top_p_mask_of, torch.index_fill_0. apply Forall_map.
  apply Forall_forall. intros [| m mrow] _; auto.
Qed.

(** The rows after the top-p masking, against the rows before it. *)
Lemma top_p_rows (vals : list (list R)) (top_p : list R) (v : R) :
  length top_p = length vals ->
  Forall2 (fun row row' =>
             length row' = length row /\ hd_error row' = hd_error row)
    vals
    (torch.masked_fill vals
       (top_p_mask_of (torch.cumsum (torch.softmax vals)) top_p) v).
Proof.
  revert top_p. induction vals as [| row vals IH]; intros [| p top_p] E;
    try discriminate.
  - constructor.
  - simpl in E. injection E as E. specialize (IH top_p E).
    unfold torch.masked_fill, top_p_mask_of, torch.index_fill_0,
      torch.greater, torch.cumsum, torch.softmax, map2 in *.
    cbn [map combine fst snd]. constructor; [| exact IH].
    pose proof (cumsum_row_length (torch.softmax_row row)) as L.
    rewrite softmax_row_length in L.
    destruct (torch.cumsum_row (torch.softmax_row row)) as [| c cs];
      destruct row as [| x row]; try discriminate; simpl; auto.
    simpl in L. injection L as L.
    split; [| reflexivity].
    now rewrite length_map, length_combine, length_map, L, Nat.min_id.
Qed.

Lemma clamped_top_p_run (probs_cumsum : list (list R)) (top_p : list R) :
  concat probs_cumsum <> [] ->
  exists m, torch.min probs_cumsum = Ok m
            /\ clamped_top_p probs_cumsum top_p = Ok (map (Rmax m) top_p).
Proof.
  intros NE. destruct (min_spec _ NE) as (m & Min & _).
  exists m. split; auto. unfold clamped_top_p. now rewrite Min.
Qed.

Lemma cumsum_softmax_not_empty (vals : list (list R)) :
  vals <> [] -> Forall (fun row => row <> []) vals ->
  concat (torch.cumsum (torch.softmax vals)) <> [].
Proof.
  destruct vals as [| row vals]; [congruence |]. intros _ NE.
  inversion NE as [| ? ? Hrow _]; subst.
  destruct row as [| x row]; [congruence |]. discriminate.
Qed.

(** C4.  In the top-p step the mask has [False] at the first position of
    every row, whatever the thresholds are.  So for values with at least one
    row and a candidate axis that is not empty, the step returns, and every
    row comes out with its length and its first entry as they were before the
    step: a first entry that was not the sentinel is still there, a candidate
    with a non-sentinel value.  This holds for every [top_p], in particular
    for one below the probability of the top token. *)
Theorem top_p_never_masks_first_position (self : Sampler)
    (top_k_logits_values : list (list R)) (top_p : list R) :
  length top_p = length top_k_logits_values ->
  top_k_logits_values <> [] ->
  Forall (fun row => row <> []) top_k_logits_values ->
  let probs_cumsum := torch.cumsum (_soft_max self top_k_logits_values) in
  exists threshold masked,
    clamped_top_p probs_cumsum top_p = Ok threshold
    /\ apply_top_p self top_k_logits_values top_p = Ok masked
    /\ Forall (fun mrow => hd_error mrow = Some false)
         (top_p_mask_of probs_cumsum threshold)
    /\ Forall2 (fun row row' =>
                  length row' = length row
                  /\ hd_error row' = hd_error row
                  /\ forall x, hd_error row = Some x ->
                               x <> IGNORED_LOGITS_VALUE self ->
                               exists y, In y row'
                                         /\ y <> IGNORED_LOGITS_VALUE self)
         top_k_logits_values masked.
Proof.
  intros Len NE Rows probs_cumsum.
  destruct (clamped_top_p_run probs_cumsum top_p) as (m & Min & Clamp).
  { now apply cumsum_softmax_not_empty. }
  exists (map (Rmax m) top_p).
  exists (torch.masked_fill top_k_logits_values
            (top_p_mask_of probs_cumsum (map (Rmax m) top_p))
            (IGNORED_LOGITS_VALUE self)).
  assert (Len' : length (map (Rmax m) top_p) = length top_k_logits_values)
    by now rewrite length_map.
  split; [exact Clamp |]. split; [| split].
  - unfold apply_top_p. fold probs_cumsum. now rewrite Clamp.
  - (* no row of the mask is empty, so its head is [False] *)
    pose proof (top_p_mask_head probs_cumsum (map (Rmax m) top_p)) as H.
    assert (NEm : Forall (fun mrow => mrow <> [])
                    (top_p_mask_of probs_cumsum (map (Rmax m) top_p))).
    { subst probs_cumsum. clear - Len' Rows.
      unfold top_p_mask_of, torch.index_fill_0, torch.greater, torch.cumsum,
        _soft_max, torch.softmax, map2.
      revert Len'. generalize (map (Rmax m) top_p) as tp.
      induction Rows as [| row vals Hrow Rows IH]; intros [| p tp] E;
        try discriminate; simpl; constructor.
      - pose proof (cumsum_row_length (torch.softmax_row row)) as L.
        rewrite softmax_row_length in L.
        destruct (torch.cumsum_row (torch.softmax_row row)); simpl.
        + destruct row; [congruence | discriminate].
        + discriminate.
      - apply IH. simpl in E. congruence. }
    rewrite Forall_forall in *. intros mrow In.
    destruct (H mrow In) as [E | E]; auto.
    exfalso. now apply (NEm mrow In).
  - eapply Forall2_impl; [| apply (top_p_rows _ _ _ Len')].
    intros row row' (L & Hd). split; [exact L | split; [exact Hd |]].
    intros x Hx Nx. exists x. split; [| exact Nx].
    rewrite <- Hd in Hx. destruct row' as [| y row']; simpl in Hx;
      [discriminate | injection Hx as ->; now left].
Qed.

Lemma top_p_never_masks_first_position_witness :
  exists threshold masked,
    clamped_top_p
      (torch.cumsum (_soft_max (a_sampler true false true true false 0)
                       [[2; 1]]))
      [1 / 100] = Ok threshold
    /\ apply_top_p (a_sampler true false true true false 0) [[2; 1]]
         [1 / 100] = Ok masked
    /\ Forall (fun mrow => hd_error mrow = Some false)
         (top_p_mask_of
            (torch.cumsum (_soft_max (a_sampler true false true true false 0)
                             [[2; 1]]))
            threshold)
    /\ Forall2 (fun row row' =>
                  length row' = length row
                  /\ hd_error row' = hd_error row
                  /\ forall x, hd_error row = Some x ->
                               x <> IGNORED_LOGITS_VALUE
                                      (a_sampler true false true true false 0) ->
                               exists y,
                                 In y row'
                                 /\ y <> IGNORED_LOGITS_VALUE
                                          (a_sampler true false true true
                                             false 0))
         [[2; 1]] masked.
Proof.
  apply (top_p_never_masks_first_position
           (a_sampler true false true true false 0) [[2; 1]] [1 / 100]
           eq_refl).
  - discriminate.
  - repeat constructor; discriminate.
Defined.

(** C7 (as amended).  The threshold of every row is the larger of the row's
    [top_p] and the least cumulative value of the whole tensor, all rows
    taken together: it is at least that minimum, which is an entry of some
    row of the tensor, and at least the row's own [top_p]. *)
Theorem clamped_top_p_at_least_global_minimum
    (probs_cumsum : list (list R)) (top_p : list R) :
  concat probs_cumsum <> [] ->
  exists m threshold,
    torch.min probs_cumsum = Ok m
    /\ clamped_top_p probs_cumsum top_p = Ok threshold
    /\ (forall row c, In row probs_cumsum -> In c row -> m <= c)
    /\ (exists row, In row probs_cumsum /\ In m row)
    /\ Forall2 (fun p p' => p' = Rmax m p /\ m <= p' /\ p <= p')
         top_p threshold.
Proof.
  intros NE. destruct (min_spec _ NE) as (m & Min & Least & Entry).
  exists m, (map (Rmax m) top_p).
  split; [exact Min |]. split; [| split; [exact Least | split; [exact Entry |]]].
  - unfold clamped_top_p. now rewrite Min.
  - clear. induction top_p as [| p top_p IH]; simpl; constructor; auto.
    split; [reflexivity |]. split; [apply Rmax_l | apply Rmax_r].
Qed.

Lemma clamped_top_p_at_least_global_minimum_witness :
  exists m threshold,
    torch.min [[1 / 2; 1]] = Ok m
    /\ clamped_top_p [[1 / 2; 1]] [1 / 4] = Ok threshold
    /\ (forall row c, In row [[1 / 2; 1]] -> In c row -> m <= c)
    /\ (exists row, In row [[1 / 2; 1]] /\ In m row)
    /\ Forall2 (fun p p' => p' = Rmax m p /\ m <= p' /\ p <= p')
         [1 / 4] threshold.
Proof.
  apply (clamped_top_p_at_least_global_minimum [[1 / 2; 1]] [1 / 4]).
  discriminate.
Defined.

Lemma softmax_top_lt (a b : R) :
  0 < a -> a < b -> a / (a + 1) < b / (b + 1).
Proof.
  intros Pa Lt.
  assert (E : b / (b + 1) - a / (a + 1) = (b - a) / ((a + 1) * (b + 1)))
    by (field; lra).
  assert (P : 0 < (b - a) / ((a + 1) * (b + 1))).
  { apply Rdiv_lt_0_compat; nra. }
  lra.
Qed.

Lemma softmax_top_gt_half (a : R) : 1 < a -> 1 / 2 < a / (a + 1).
Proof.
  intros Pa.
  assert (E : a / (a + 1) - 1 / 2 = (a - 1) / (2 * (a + 1))) by (field; lra).
  assert (P : 0 < (a - 1) / (2 * (a + 1))).
  { apply Rdiv_lt_0_compat; nra. }
  lra.
Qed.

(** The values that reach the top-p step in the run below: the sorted
    logits, nothing masked by top_k = 2, not divided (not dynamic, and every
    temperature is 1). *)
Lemma top_k_masked_two_rows :
  greedy (a_sampler true false true false true 0) [2; 2] = false
  /\ _top_k_masked (a_sampler true false true false true 0)
       [[1; 0]; [2; 0]] [2; 2]
     = Ok ([[1; 0]; [2; 0]], [[0; 1]; [0; 1]]%nat).
Proof.
  split.
  - unfold greedy, torch.all. cbn [a_sampler do_sample dynamic negb map
      forallb orb andb]. Rcompare. reflexivity.
  - unfold _top_k_masked, torch.sort, torch.sort_row, torch.masked_fill,
      torch.greater_equal, torch.arange, map2.
    cbn [a_sampler global_topk Z.gtb Z.compare bindR map length seq combine
           fold_right torch.insert_desc fst snd INR IGNORED_LOGITS_VALUE].
    Rcompare.
    cbn [map length seq combine fst snd INR].
    Rcompare. reflexivity.
Qed.

(** C7 (as stated) fails.  Take the sampler with [do_sample] set and
    [dynamic] unset, the logits [[1, 0], [2, 0]], top_k = 2, temperature = 1
    and top_p = 0.1 on both rows, so that the top-p step runs on the values
    [[1, 0], [2, 0]].  The minimum that the thresholds are clamped to is the
    first cumulative value of row 0; the threshold of row 1 is that value,
    and it is smaller than every cumulative value of row 1. *)
Lemma clamped_top_p_below_own_row :
  exists threshold p1 row1,
    clamped_top_p (torch.cumsum (torch.softmax [[1; 0]; [2; 0]]))
      [1 / 10; 1 / 10] = Ok threshold
    /\ nth_error threshold 1 = Some p1
    /\ nth_error (torch.cumsum (torch.softmax [[1; 0]; [2; 0]])) 1 = Some row1
    /\ Forall (fun c => p1 < c) row1.
Proof.
  assert (E1 : 1 < exp 1).
  { rewrite <- exp_0 at 1. apply exp_increasing. lra. }
  assert (E2 : exp 1 < exp 2) by (apply exp_increasing; lra).
  pose proof (softmax_top_lt (exp 1) (exp 2) ltac:(lra) E2) as Top.
  pose proof (softmax_top_gt_half (exp 1) E1) as Half.
  unfold clamped_top_p, torch.min, torch.max, torch.cumsum, torch.softmax,
    torch.softmax_row, torch.cumsum_row, torch.sum_row.
  cbn [map concat app fold_right torch.cumsum_from fold_left bindR nth_error].
  rewrite exp_0.
  set (c00 := 0 + exp 1 / (exp 1 + (1 + 0))).
  set (c10 := 0 + exp 2 / (exp 2 + (1 + 0))).
  assert (C00 : c00 = exp 1 / (exp 1 + 1))
    by (subst c00; now rewrite Rplus_0_l, Rplus_0_r).
  assert (C10 : c10 = exp 2 / (exp 2 + 1))
    by (subst c10; now rewrite Rplus_0_l, Rplus_0_r).
  assert (P0 : 0 < 1 / (exp 1 + (1 + 0))).
  { apply Rdiv_lt_0_compat; lra. }
  assert (P1 : 0 < 1 / (exp 2 + (1 + 0))).
  { apply Rdiv_lt_0_compat; lra. }
  rewrite (Rmin_left c00) by lra.
  rewrite (Rmin_left c00) by lra.
  rewrite (Rmin_left c00) by lra.
  rewrite (Rmax_left c00) by lra.
  eexists. eexists. eexists.
  split; [reflexivity |]. split; [reflexivity |]. split; [reflexivity |].
  repeat constructor; lra.
Qed.

(* ================================================================= *)
(** ** Shapes along the general path *)

Lemma same_shape_length {A B : Type} (t : list (list A)) (t' : list (list B)) :
  same_shape t t' -> length t' = length t.
Proof. intros H. symmetry. exact (Forall2_length H). Qed.

Lemma same_shape_rows {A B : Type} (t : list (list A)) (t' : list (list B))
    (k : nat) :
  same_shape t t' -> Forall (fun row => length row = k) t ->
  Forall (fun row => length row = k) t'.
Proof.
  induction 1 as [| row row' t t' E _ IH]; intros F; constructor;
    inversion F; subst; auto.
Qed.

Lemma same_shape_trans {A B C : Type} (t1 : list (list A))
    (t2 : list (list B)) (t3 : list (list C)) :
  same_shape t1 t2 -> same_shape t2 t3 -> same_shape t1 t3.
Proof.
  unfold same_shape. intros H. revert t3.
  induction H as [| r1 r2 t1 t2 E _ IH]; intros t3 H3; inversion H3; subst.
  - constructor.
  - constructor; [congruence | auto].
Qed.


Lemma same_shape_refl {A : Type} (t : list (list A)) : same_shape t t.
Proof. unfold same_shape. induction t; constructor; auto. Qed.

Lemma top_k_mask_shape (sorted_logits : list (list R)) (top_k : list R)
    (v : R) :
  length top_k = length sorted_logits ->
  same_shape sorted_logits
    (torch.masked_fill sorted_logits
       (torch.greater_equal
          (map (fun row => torch.arange (length row)) sorted_logits) top_k) v).
Proof.
  revert top_k.
  induction sorted_logits as [| row t IH]; intros [| k top_k] E;
    try discriminate.
  - constructor.
  - simpl in E. injection E as E. specialize (IH top_k E).
    unfold torch.masked_fill, torch.greater_equal, map2 in *.
    cbn [map combine fst snd]. constructor; [| exact IH].
    unfold torch.arange.
    now rewrite length_map, length_combine, !length_map, length_seq,
      Nat.min_id.
Qed.

Lemma divide_shape (vals : list (list R)) (temperature : list R) :
  length temperature = length vals ->
  same_shape vals (torch.divide vals temperature).
Proof.
  revert temperature.
  induction vals as [| row t IH]; intros [| c temperature] E;
    try discriminate.
  - constructor.
  - simpl in E. injection E as E. specialize (IH temperature E).
    unfold torch.divide, map2 in *. cbn [map combine fst snd].
    constructor; [| exact IH]. now rewrite length_map.
Qed.



Lemma top_p_shape (vals : list (list R)) (top_p : list R) (v : R) :
  length top_p = length vals ->
  same_shape vals
    (torch.masked_fill vals
       (top_p_mask_of (torch.cumsum (torch.softmax vals)) top_p) v).
Proof.
  intros E. eapply Forall2_impl; [| apply (top_p_rows _ _ _ E)].
  simpl. tauto.
Qed.

(** Softmax of a row that is not empty sums to one. *)
Lemma sum_row_exp_pos (row : list R) :
  row <> [] -> 0 < torch.sum_row (map exp row).
Proof.
  assert (NN : forall l, 0 <= torch.sum_row (map exp l)).
  { induction l as [| x l IH]; simpl; [lra |].
    pose proof (exp_pos x). lra. }
  destruct row as [| x row]; [congruence | intros _]. simpl.
  pose proof (exp_pos x). pose proof (NN row). lra.
Qed.

Lemma sum_row_scale (e : list R) (s : R) :
  torch.sum_row (map (fun x => x / s) e) = torch.sum_row e / s.
Proof.
  induction e as [| x e IH]; simpl.
  - unfold Rdiv. now rewrite Rmult_0_l.
  - rewrite IH. unfold Rdiv. now rewrite Rmult_plus_distr_r.
Qed.

Lemma softmax_row_sum (row : list R) :
  row <> [] -> torch.sum_row (torch.softmax_row row) = 1.
Proof.
  intros NE. unfold torch.softmax_row. rewrite sum_row_scale.
  pose proof (sum_row_exp_pos row NE). field. lra.
Qed.

(* ================================================================= *)
(** ** The draw, the count and the gather *)

Lemma rand_selector_run (self : Sampler) (probs_cumsum : list (list R))
    (g : rng) :
  exists draws g',
    _rand_selector self probs_cumsum g = (Ok draws, g')
    /\ length draws = length probs_cumsum
    /\ (deterministic self = true ->
        draws = repeat (1 / 2) (length probs_cumsum) /\ g' = g).
Proof.
  unfold _rand_selector. destruct (deterministic self).
  - exists (repeat (1 / 2) (length probs_cumsum)), g.
    split; [reflexivity |]. split; [apply repeat_length | auto].
  - eexists. eexists. split; [reflexivity |].
    split; [now rewrite length_map, length_seq | discriminate].
Qed.

Lemma count_row_greater (draw : R) (cumulative : list R) :
  torch.count_row (map (fun x => Rgtb draw x) cumulative)
  = count_less draw cumulative.
Proof.
  unfold torch.count_row, count_less.
  induction cumulative as [| c l IH]; simpl; auto.
  unfold Rgtb at 1. destruct (Rltb c draw); simpl; auto.
Qed.

Lemma sum_greater_col (draws : list R) (probs_cumsum : list (list R)) :
  torch.sum (torch.greater_col draws probs_cumsum)
  = map2 count_less draws probs_cumsum.
Proof.
  unfold torch.sum, torch.greater_col, map2. rewrite map_map.
  apply map_ext. intros [d row]. apply count_row_greater.
Qed.

Lemma multinomial_run (self : Sampler) (probs : list (list R)) (g g' : rng)
    (draws : list R) :
  _rand_selector self (torch.cumsum probs) g = (Ok draws, g') ->
  _multinomial self probs g
  = (Ok (map2 count_less draws (torch.cumsum probs)), g').
Proof.
  intros H. unfold _multinomial. rewrite (bind_ok _ _ _ _ _ H).
  unfold ret. now rewrite sum_greater_col.
Qed.

Lemma gather_ok {A : Type} (input : list (list A)) (index : list nat) :
  Forall2 (fun row i => (i < length row)%nat) input index ->
  exists out, torch.gather input index = Ok out.
Proof.
  unfold torch.gather.
  induction 1 as [| row i input index Lt _ IH]; simpl.
  - now exists [].
  - destruct IH as (out & E). rewrite E.
    destruct (nth_error row i) as [x |] eqn:N.
    + now exists (x :: out).
    + apply nth_error_None in N. lia.
Qed.

Lemma gather_spec {A : Type} (input : list (list A)) (index : list nat)
    (out : list A) :
  length index = length input ->
  torch.gather input index = Ok out ->
  length out = length input
  /\ Forall2 (fun row_i x => nth_error (fst row_i) (snd row_i) = Some x)
       (combine input index) out.
Proof.
  intros L G. unfold torch.gather in G. apply mapR_ok_Forall2 in G.
  split.
  - rewrite <- (Forall2_length G), length_combine, L. apply Nat.min_id.
  - eapply Forall2_impl; [| exact G]. intros [row i] x; simpl.
    destruct (nth_error row i); congruence.
Qed.

(** The last cumulative sum is the total, so a draw that does not exceed the
    total leaves at least the last entry uncounted. *)
Lemma count_less_cumsum_from (draw acc : R) (row : list R) :
  row <> [] -> draw <= acc + torch.sum_row row ->
  (count_less draw (torch.cumsum_from acc row) < length row)%nat.
Proof.
  unfold count_less. revert acc.
  induction row as [| x row IH]; intros acc NE Le; [congruence |].
  destruct row as [| y row].
  - simpl in *. replace (Rltb (acc + x) draw) with false; [simpl; lia |].
    symmetry. apply Rltb_false. lra.
  - assert (Rest : (length (filter (fun c => Rltb c draw)
                              (torch.cumsum_from (acc + x) (y :: row)))
                    < length (y :: row))%nat).
    { apply IH; [discriminate |]. simpl in *. lra. }
    cbn [torch.cumsum_from filter] in *.
    destruct (Rltb (acc + x) draw); cbn [length] in *; lia.
Qed.

Lemma count_less_in_bounds (draw : R) (probs_row : list R) :
  0 < draw -> draw <= torch.sum_row probs_row ->
  (count_less draw (torch.cumsum_row probs_row) < length probs_row)%nat.
Proof.
  intros Pos Le. apply count_less_cumsum_from; [| lra].
  intros ->. simpl in Le. lra.
Qed.

Lemma counts_in_bounds (probs : list (list R)) (draws : list R) :
  Forall2 (fun probs_row draw => 0 < draw /\ draw <= torch.sum_row probs_row)
    probs draws ->
  Forall2 (fun probs_row count => (count < length probs_row)%nat)
    probs (map2 count_less draws (torch.cumsum probs)).
Proof.
  unfold map2, torch.cumsum.
  induction 1 as [| row d probs draws [Pos Le] _ IH]; simpl; constructor; auto.
  now apply count_less_in_bounds.
Qed.

(** C10.  Let the draws of the pseudo-multinomial step be [draws].  If for
    every batch row the probabilities sum to at least the row's draw, and the
    draw is strictly positive and strictly below that total, then the count
    of every row is strictly less than the length of the row, and the gather
    into an index tensor whose rows are as long as those of the probabilities
    returns: one entry per batch row, no index out of bounds. *)
Theorem multinomial_count_in_bounds (self : Sampler) (probs : list (list R))
    (indices : list (list nat)) (g g' : rng) (draws : list R) :
  _rand_selector self (torch.cumsum probs) g = (Ok draws, g') ->
  Forall2 (fun probs_row draw =>
             draw <= torch.sum_row probs_row
             /\ 0 < draw /\ draw < torch.sum_row probs_row) probs draws ->
  same_shape probs indices ->
  exists counts tokens,
    _multinomial self probs g = (Ok counts, g')
    /\ Forall2 (fun probs_row count => (count < length probs_row)%nat)
         probs counts
    /\ Forall2 (fun irow count => (count < length irow)%nat) indices counts
    /\ torch.gather indices counts = Ok tokens
    /\ length tokens = length probs.
Proof.
  intros Draw Hyp Shape.
  set (counts := map2 count_less draws (torch.cumsum probs)).
  assert (B1 : Forall2 (fun probs_row count => (count < length probs_row)%nat)
                 probs counts).
  { apply counts_in_bounds. eapply Forall2_impl; [| exact Hyp].
    simpl. tauto. }
  assert (B2 : Forall2 (fun irow count => (count < length irow)%nat)
                 indices counts).
  { clearbody counts. clear - B1 Shape. unfold same_shape in Shape.
    revert counts B1.
    induction Shape as [| prow irow probs indices E _ IH]; intros counts B1;
      inversion B1; subst; constructor; auto; congruence. }
  destruct (gather_ok indices counts B2) as (tokens & G).
  exists counts, tokens.
  split; [now apply multinomial_run |].
  split; [exact B1 |]. split; [exact B2 |]. split; [exact G |].
  apply gather_spec in G as [L _].
  - rewrite L. now apply same_shape_length.
  - symmetry. exact (Forall2_length B2).
Qed.

Lemma multinomial_count_in_bounds_witness :
  exists counts tokens,
    _multinomial (a_sampler true false true true true 0)
      [[1 / 2; 1 / 2]] (constant_rng 0) = (Ok counts, constant_rng 0)
    /\ Forall2 (fun probs_row count => (count < length probs_row)%nat)
         [[1 / 2; 1 / 2]] counts
    /\ Forall2 (fun irow count => (count < length irow)%nat)
         [[7; 3]%nat] counts
    /\ torch.gather [[7; 3]%nat] counts = Ok tokens
    /\ length tokens = 1%nat.
Proof.
  apply (multinomial_count_in_bounds
           (a_sampler true false true true true 0) [[1 / 2; 1 / 2]]
           [[7; 3]%nat] (constant_rng 0) (constant_rng 0) [1 / 2] eq_refl).
  - constructor; [| constructor]. simpl. lra.
  - repeat constructor.
Defined.

(* ================================================================= *)
(** ** The general path *)

Lemma apply_top_p_run (self : Sampler) (vals : list (list R))
    (top_p : list R) :
  length top_p = length vals ->
  vals <> [] -> Forall (fun row => row <> []) vals ->
  exists masked,
    apply_top_p self vals top_p = Ok masked /\ same_shape vals masked.
Proof.
  intros Len NE Rows.
  destruct (clamped_top_p_run (torch.cumsum (torch.softmax vals)) top_p)
    as (m & _ & Clamp); [now apply cumsum_softmax_not_empty |].
  eexists. split.
  - unfold apply_top_p, _soft_max. rewrite Clamp. reflexivity.
  - apply top_p_shape. now rewrite length_map.
Qed.

Lemma rows_not_empty {A : Type} (t : list (list A)) (k : nat) :
  (1 <= k)%nat -> Forall (fun row => length row = k) t ->
  Forall (fun row => row <> []) t.
Proof.
  intros K F. eapply Forall_impl; [| exact F]. simpl.
  intros row E ->. simpl in E. lia.
Qed.

Lemma k_used_pos (self : Sampler) (V : nat) :
  (1 <= V)%nat -> (1 <= k_used self V)%nat.
Proof. unfold k_used. destruct (Z.gtb_spec (global_topk self) 0); lia. Qed.

(** One run of [forward] off the greedy path and without the speculative
    flag, on logits of shape (B, V) with B and V at least 1: the candidate
    positions and the final probabilities are computed without touching the
    generator; with [return_values] they are the result, without it the
    draw, the count and the gather follow. *)
Lemma forward_general_run (self : Sampler) (token_logits : list (list R))
    (top_k top_p temperature : list R) (V : nat) :
  length top_k = length token_logits ->
  length top_p = length token_logits ->
  length temperature = length token_logits ->
  token_logits <> [] ->
  Forall (fun row => length row = V) token_logits ->
  (1 <= V)%nat ->
  (global_topk self <= Z.of_nat V)%Z ->
  greedy self top_k = false ->
  is_medusa self = false ->
  exists indices probs,
    (forall g, forward self token_logits (stack3 top_k top_p temperature)
                 true g = (Ok (OutIndicesProbs indices probs), g))
    /\ (forall g, forward self token_logits (stack3 top_k top_p temperature)
                    false g
                  = (counts <- _multinomial self probs ;;
                     tokens <- lift (torch.gather indices counts) ;;
                     ret (OutTokens tokens)) g)
    /\ length indices = length token_logits
    /\ Forall (fun irow => length irow = k_used self V) indices
    /\ Forall2 top_candidates token_logits indices
    /\ same_shape indices probs
    /\ Forall (fun probs_row => torch.sum_row probs_row = 1) probs.
Proof.
  intros Hk Hp Ht NE Rect PosV Le G Med.
  pose proof (top_k_masked_run self token_logits top_k V Rect Le) as Run.
  cbv zeta in Run.
  set (indices := map (fun row => firstn (k_used self V)
                                    (map snd (torch.sort_row row)))
                    token_logits) in *.
  set (sorted := map (fun row => firstn (k_used self V)
                                   (map fst (torch.sort_row row)))
                   token_logits) in *.
  set (vals0 := torch.masked_fill sorted _ _) in Run.
  (* shapes *)
  assert (Si : Forall (fun irow => length irow = k_used self V) indices)
    by now apply top_k_indices_shape.
  assert (Ss : Forall (fun row => length row = k_used self V) sorted).
  { subst sorted. apply Forall_map.
    eapply Forall_impl; [| exact Rect]. simpl. intros row E.
    rewrite length_firstn, length_map, sort_row_length, E.
    pose proof (k_used_le self V Le). lia. }
  assert (Ls : length sorted = length token_logits) by apply length_map.
  assert (Li : length indices = length token_logits) by apply length_map.
  assert (S0 : same_shape sorted vals0).
  { subst vals0. apply top_k_mask_shape. congruence. }
  set (vals1 := if dynamic self
                   || torch.any (map (fun t => Rneb t 1) temperature)
                then torch.divide vals0 temperature else vals0).
  assert (S1 : same_shape sorted vals1).
  { subst vals1. destruct (dynamic self || _); auto.
    eapply same_shape_trans; [exact S0 |]. apply divide_shape.
    rewrite (same_shape_length _ _ S0). congruence. }
  assert (L1 : length vals1 = length token_logits).
  { rewrite (same_shape_length _ _ S1). exact Ls. }
  assert (R1 : Forall (fun row => length row = k_used self V) vals1)
    by (eapply same_shape_rows; eauto).
  assert (K : (1 <= k_used self V)%nat) by now apply k_used_pos.
  assert (Stage : exists vals2,
             (forall g : rng,
                 (if dynamic self || torch.any (map (fun p => Rltb p 1) top_p)
                  then lift (apply_top_p self vals1 top_p)
                  else ret vals1) g = (Ok vals2, g))
             /\ same_shape vals1 vals2).
  { destruct (dynamic self || torch.any (map (fun p => Rltb p 1) top_p)).
    - destruct (apply_top_p_run self vals1 top_p) as (masked & A & S).
      + congruence.
      + intros E. rewrite E in L1. destruct token_logits; [congruence |].
        discriminate.
      + eapply rows_not_empty; eauto.
      + exists masked. split; auto. intros g. unfold lift. now rewrite A.
    - exists vals1. split; [reflexivity |].
      apply same_shape_refl. }
  destruct Stage as (vals2 & Stage & S2).
  assert (R2 : Forall (fun row => length row = k_used self V) vals2)
    by (eapply same_shape_rows; eauto).
  exists indices, (_soft_max self vals2).
  split; [| split; [| split; [exact Li | split; [exact Si | split;
                                                    [| split]]]]].
  - intros g. forward_prologue Hk Hp Ht. rewrite G.
    unfold lift at 1. rewrite Run. cbv beta iota. rewrite Med.
    fold vals1. rewrite Stage. reflexivity.
  - intros g. forward_prologue Hk Hp Ht. rewrite G.
    unfold lift at 1. rewrite Run. cbv beta iota. rewrite Med.
    fold vals1. rewrite Stage. reflexivity.
  - subst indices. clear.
    induction token_logits as [| row t IH]; simpl; constructor; auto.
    apply sort_row_top_candidates.
  - unfold same_shape, _soft_max, torch.softmax.
    clear - Si R2 Li L1 S2.
    assert (L2 : length vals2 = length indices).
    { rewrite (same_shape_length _ _ S2). congruence. }
    clear S2 L1 Li. revert vals2 R2 L2.
    induction Si as [| irow indices E _ IH]; intros [| row vals2] R2 L2;
      try discriminate; simpl; constructor.
    + inversion R2; subst. rewrite softmax_row_length. congruence.
    + apply IH; [now inversion R2 | simpl in L2; congruence].
  - unfold _soft_max, torch.softmax. apply Forall_map.
    eapply Forall_impl; [| exact R2]. simpl. intros row E.
    apply softmax_row_sum. intros ->. simpl in E. lia.
Qed.









(* ================================================================= *)
(** ** The deterministic draw *)

Lemma stateless_ret {A : Type} (a : A) : stateless (ret a).
Proof. now exists (Ok a). Qed.

Lemma stateless_lift {A : Type} (r : result A) : stateless (lift r).
Proof. now exists r. Qed.

Lemma stateless_bind {A B : Type} (c : M rng A) (k : A -> M rng B) :
  stateless c -> (forall a, stateless (k a)) -> stateless (bind c k).
Proof.
  intros [[a | e] Hc] Hk.
  - destruct (Hk a) as [r Hr]. exists r. intros g.
    unfold bind. now rewrite Hc, Hr.
  - exists (Raise e). intros g. unfold bind. now rewrite Hc.
Qed.

Lemma rand_selector_deterministic (self : Sampler)
    (probs_cumsum : list (list R)) (g : rng) :
  deterministic self = true ->
  _rand_selector self probs_cumsum g
  = (Ok (repeat (1 / 2) (length probs_cumsum)), g).
Proof. intros D. unfold _rand_selector. now rewrite D. Qed.

Lemma multinomial_stateless (self : Sampler) (probs : list (list R)) :
  deterministic self = true -> stateless (_multinomial self probs).
Proof.
  intros D. unfold _multinomial. apply stateless_bind.
  - eexists. intros g. now apply rand_selector_deterministic.
  - intros draws. apply stateless_ret.
Qed.

(** With [deterministic] set, [forward] neither reads nor advances the
    generator, on any path. *)
Lemma forward_stateless (self : Sampler) (token_logits sampling_params
    : list (list R)) (return_values : bool) :
  deterministic self = true ->
  stateless (forward self token_logits sampling_params return_values).
Proof.
  intros D. unfold forward.
  repeat (apply stateless_bind; [apply stateless_lift | intros ?]).
  destruct (greedy self _).
  - destruct (Config.on_cpu (neuron_config self)).
    + apply stateless_bind; [apply stateless_lift | intros ?].
      apply stateless_ret.
    + apply stateless_bind; [apply stateless_lift | intros ?].
      destruct return_values; apply stateless_ret.
  - apply stateless_bind; [apply stateless_lift | intros [vals idx]].
    destruct (is_medusa self); [apply stateless_ret |].
    apply stateless_bind.
    { destruct (dynamic self || _);
        [apply stateless_lift | apply stateless_ret]. }
    intros vals2.
    destruct return_values; [apply stateless_ret |].
    apply stateless_bind; [now apply multinomial_stateless | intros counts].
    apply stateless_bind; [apply stateless_lift | intros tokens].
    apply stateless_ret.
Qed.

Lemma half_draws_in_range (probs : list (list R)) :
  Forall (fun probs_row => torch.sum_row probs_row = 1) probs ->
  Forall2 (fun probs_row draw => 0 < draw /\ draw <= torch.sum_row probs_row)
    probs (repeat (1 / 2) (length (torch.cumsum probs))).
Proof.
  unfold torch.cumsum. rewrite length_map.
  induction 1 as [| row probs E _ IH]; simpl; constructor; auto.
  rewrite E. lra.
Qed.

(** X18.  With [deterministic] set, the sampling path on logits of shape (B, V),
    B and V at least 1, returns B token ids: the fixed draw 0.5 is below the
    total probability 1 of every row, so every count is inside its row. *)
Lemma forward_deterministic_returns (self : Sampler)
    (token_logits : list (list R)) (top_k top_p temperature : list R)
    (V : nat) :
  deterministic self = true ->
  length top_k = length token_logits ->
  length top_p = length token_logits ->
  length temperature = length token_logits ->
  token_logits <> [] ->
  Forall (fun row => length row = V) token_logits ->
  (1 <= V)%nat ->
  (global_topk self <= Z.of_nat V)%Z ->
  greedy self top_k = false ->
  is_medusa self = false ->
  exists tokens,
    length tokens = length token_logits
    /\ forall g, forward self token_logits (stack3 top_k top_p temperature)
                   false g = (Ok (OutTokens tokens), g).
Proof.
  intros D Hk Hp Ht NE Rect PosV Le G Med.
  destruct (forward_general_run self token_logits top_k top_p temperature V)
    as (indices & probs & _ & RunF & Li & _ & _ & Shape & Sum); auto.
  set (counts := map2 count_less
                   (repeat (1 / 2) (length (torch.cumsum probs)))
                   (torch.cumsum probs)).
  assert (B1 : Forall2 (fun probs_row count => (count < length probs_row)%nat)
                 probs counts)
    by (apply counts_in_bounds; now apply half_draws_in_range).
  assert (B2 : Forall2 (fun irow count => (count < length irow)%nat)
                 indices counts).
  { clearbody counts. clear - B1 Shape. unfold same_shape in Shape.
    revert counts B1.
    induction Shape as [| irow prow indices probs E _ IH]; intros counts B1;
      inversion B1; subst; constructor; auto; congruence. }
  destruct (gather_ok indices counts B2) as (tokens & Gt).
  exists tokens. split.
  - apply gather_spec in Gt as [L _]; [congruence |].
    symmetry. exact (Forall2_length B2).
  - intros g. rewrite RunF.
    rewrite (bind_ok _ _ _ _ _
               (multinomial_run _ _ _ _ _
                  (rand_selector_deterministic self _ g D))).
    fold counts. unfold bind, lift, ret. now rewrite Gt.
Qed.

(** C6.  For a sampler constructed from a configuration whose
    [deterministic] is true, the draw is the constant 0.5 for every batch
    row and the generator is not touched; so the outcome of [forward] is the
    same whatever the state of the generator is: two calls with the same
    logits and the same parameters return the same token ids. *)
Theorem deterministic_draw_is_reproducible
    (config : Config.NeuronConfig)
    (sampling_config : Config.OnDeviceSamplingConfig)
    (do_sample_override : option bool) (self : Sampler) :
  Config.on_device_sampling_config config = Some sampling_config ->
  Config.deterministic sampling_config = true ->
  Sampler_init config do_sample_override = Ok self ->
  (forall probs_cumsum g,
      _rand_selector self probs_cumsum g
      = (Ok (repeat (1 / 2) (length probs_cumsum)), g))
  /\ (forall token_logits sampling_params return_values g1 g2,
         fst (forward self token_logits sampling_params return_values g1)
         = fst (forward self token_logits sampling_params return_values g2)).
Proof.
  intros Cfg Det Init.
  assert (D : deterministic self = true).
  { unfold Sampler_init in Init. rewrite Cfg in Init.
    injection Init as <-. exact Det. }
  split.
  - intros cs g. now apply rand_selector_deterministic.
  - intros token_logits sampling_params return_values g1 g2.
    destruct (forward_stateless self token_logits sampling_params
                return_values D) as [r Hr].
    now rewrite !Hr.
Qed.

Lemma deterministic_draw_is_reproducible_witness :
  (forall probs_cumsum g,
      _rand_selector (a_sampler true false true true true 0) probs_cumsum g
      = (Ok (repeat (1 / 2) (length probs_cumsum)), g))
  /\ (forall token_logits sampling_params return_values g1 g2,
         fst (forward (a_sampler true false true true true 0) token_logits
                sampling_params return_values g1)
         = fst (forward (a_sampler true false true true true 0) token_logits
                  sampling_params return_values g2)).
Proof.
  exact (deterministic_draw_is_reproducible
           (a_config true false true true true 0)
           {| Config.do_sample := true; Config.dynamic := true;
              Config.deterministic := true; Config.global_topk := 0 |}
           None (a_sampler true false true true true 0)
           eq_refl eq_refl eq_refl).
Defined.

(* ================================================================= *)
(** ** Further properties of the parameter preparation *)

(** X1.  [prepare_tensor] returns a tensor that holds the coerced sequence.  An
    argument that is a tensor already is returned as it is, without a copy
    and without touching the heap; a number or a list gives a new object, so
    the result never aliases a list of the caller.  Preparing the result
    again changes nothing. *)
Theorem prepare_tensor_idempotent (h : heap) (val : pyval) (d : list R) :
  coerced h val = Some d ->
  exists a h',
    prepare_tensor val h = (Ok (Ref a), h')
    /\ extends h h'
    /\ nth_error h' a = Some (ObjTensor d)
    /\ (nth_error h a = Some (ObjTensor d) /\ val = Ref a /\ h' = h
        \/ (length h <= a)%nat /\ is_tensor val h = (Ok false, h))
    /\ prepare_tensor (Ref a) h' = (Ok (Ref a), h').
Proof.
  intros C.
  assert (Again : forall a h', nth_error h' a = Some (ObjTensor d) ->
                               prepare_tensor (Ref a) h' = (Ok (Ref a), h')).
  { intros a h' L. cbv [prepare_tensor bind is_tensor ret negb].
    now rewrite L. }
  destruct val as [x | b]; simpl in C.
  - injection C as <-.
    exists (S (length h)), ((h ++ [ObjList [x]]) ++ [ObjTensor [x]]).
    assert (L : nth_error ((h ++ [ObjList [x]]) ++ [ObjTensor [x]])
                  (S (length h)) = Some (ObjTensor [x])).
    { replace (S (length h)) with (length (h ++ [ObjList [x]]))
        by (rewrite length_app; simpl; lia).
      apply lookup_fresh. }
    split; [| split; [| split; [exact L | split]]].
    + cbv [prepare_tensor bind is_tensor isinstance_list singleton_list
             torch_tensor deref alloc ret negb].
      rewrite lookup_fresh. now rewrite length_app, Nat.add_1_r.
    + eapply extends_trans; apply extends_snoc.
    + right. split; [lia | reflexivity].
    + now apply Again.
  - destruct (nth_error h b) as [[items | data] |] eqn:Hb; try discriminate;
      injection C as <-.
    + exists (length h), (h ++ [ObjTensor items]).
      split; [| split; [apply extends_snoc | split; [apply lookup_fresh |
                                                      split]]].
      * cbv [prepare_tensor bind is_tensor isinstance_list singleton_list
               torch_tensor deref alloc ret negb].
        now repeat (rewrite Hb; cbv beta iota).
      * right. split; [lia |]. unfold is_tensor. now rewrite Hb.
      * apply Again. apply lookup_fresh.
    + exists b, h.
      split; [now apply Again | split; [apply extends_refl |
                                         split; [exact Hb | split]]].
      * left. auto.
      * now apply Again.
Qed.

Lemma prepare_tensor_idempotent_witness :
  exists a h',
    prepare_tensor (Ref 0) [ObjList [2; 3]] = (Ok (Ref a), h')
    /\ extends [ObjList [2; 3]] h'
    /\ nth_error h' a = Some (ObjTensor [2; 3])
    /\ (nth_error [ObjList [2; 3]] a = Some (ObjTensor [2; 3])
        /\ Ref 0 = Ref a /\ h' = [ObjList [2; 3]]
        \/ (1 <= a)%nat
           /\ is_tensor (Ref 0) [ObjList [2; 3]]
              = (Ok false, [ObjList [2; 3]]))
    /\ prepare_tensor (Ref a) h' = (Ok (Ref a), h').
Proof.
  exact (prepare_tensor_idempotent [ObjList [2; 3]] (Ref 0) [2; 3] eq_refl).
Defined.

(** X2.  Whatever the lengths of the three arguments are, also when the assertion
    fails, [prepare_sampling_params] leaves every object that existed before
    the call as it was: the heap after the call is the heap before it with
    new objects appended, and the arguments coerce to the same sequences. *)
Theorem prepare_sampling_params_only_allocates (batch_size : nat)
    (top_k top_p temperature : pyval) (h : heap) (dk dp dt : list R) :
  coerced h top_k = Some dk ->
  coerced h top_p = Some dp ->
  coerced h temperature = Some dt ->
  let h' := snd (prepare_sampling_params batch_size top_k top_p temperature h)
  in
  extends h h'
  /\ (forall a o, nth_error h a = Some o -> nth_error h' a = Some o)
  /\ coerced h' top_k = Some dk
  /\ coerced h' top_p = Some dp
  /\ coerced h' temperature = Some dt.
Proof.
  intros Ck Cp Ct h'.
  destruct (prepare_sampling_params_run batch_size _ _ _ _ _ _ _ Ck Cp Ct)
    as (h1 & Ext & Run).
  subst h'. rewrite Run. cbn [snd].
  split; [exact Ext |].
  split; [intros a o; now apply extends_lookup |].
  split; [| split]; eapply extends_coerced; eauto.
Qed.

Lemma prepare_sampling_params_only_allocates_witness :
  extends [ObjList [2; 3]; ObjTensor [1]]
    (snd (prepare_sampling_params 2 (Ref 0) (Ref 1) (Scalar 1)
            [ObjList [2; 3]; ObjTensor [1]]))
  /\ (forall a o,
         nth_error [ObjList [2; 3]; ObjTensor [1]] a = Some o ->
         nth_error
           (snd (prepare_sampling_params 2 (Ref 0) (Ref 1) (Scalar 1)
                   [ObjList [2; 3]; ObjTensor [1]])) a = Some o)
  /\ coerced (snd (prepare_sampling_params 2 (Ref 0) (Ref 1) (Scalar 1)
                     [ObjList [2; 3]; ObjTensor [1]])) (Ref 0)
     = Some [2; 3]
  /\ coerced (snd (prepare_sampling_params 2 (Ref 0) (Ref 1) (Scalar 1)
                     [ObjList [2; 3]; ObjTensor [1]])) (Ref 1)
     = Some [1]
  /\ coerced (snd (prepare_sampling_params 2 (Ref 0) (Ref 1) (Scalar 1)
                     [ObjList [2; 3]; ObjTensor [1]])) (Scalar 1)
     = Some [1].
Proof.
  exact (prepare_sampling_params_only_allocates 2 (Ref 0) (Ref 1) (Scalar 1)
           [ObjList [2; 3]; ObjTensor [1]] [2; 3] [1] [1]
           eq_refl eq_refl eq_refl).
Defined.

Lemma column_repeat (x y z : R) (n : nat) :
  column 0 (repeat [x; y; z] n) = Ok (repeat x n)
  /\ column 1 (repeat [x; y; z] n) = Ok (repeat y n)
  /\ column 2 (repeat [x; y; z] n) = Ok (repeat z n).
Proof.
  rewrite <- stack3_repeat.
  rewrite column_0_stack3, column_1_stack3, column_2_stack3
    by now rewrite !repeat_length.
  auto.
Qed.

(** X3.  What [forward] reads back from the prepared parameters.  When the three
    lengths agree, the tensor that [prepare_sampling_params] returns has as
    its columns 0, 1 and 2 the sequences of top_k, top_p and temperature:
    repeated [batch_size] times when their length is 1, as they were given
    otherwise. *)
Theorem prepare_sampling_params_columns (batch_size : nat)
    (top_k top_p temperature : pyval) (h : heap) (dk dp dt : list R) :
  coerced h top_k = Some dk ->
  coerced h top_p = Some dp ->
  coerced h temperature = Some dt ->
  length dk = length dp ->
  length dp = length dt ->
  exists sampling_params,
    fst (prepare_sampling_params batch_size top_k top_p temperature h)
    = Ok sampling_params
    /\ column 0 sampling_params = Ok (broadcast batch_size (length dk) dk)
    /\ column 1 sampling_params = Ok (broadcast batch_size (length dk) dp)
    /\ column 2 sampling_params = Ok (broadcast batch_size (length dk) dt).
Proof.
  intros Ck Cp Ct Ekp Ept.
  destruct (prepare_sampling_params_run batch_size _ _ _ _ _ _ _ Ck Cp Ct)
    as (h1 & _ & Run).
  rewrite Run. cbn [fst]. rewrite Ekp, Ept, !Nat.eqb_refl. cbn [andb].
  eexists. split; [reflexivity |]. unfold broadcast.
  rewrite <- Ept, <- Ekp.
  destruct (Nat.eqb (length dk) 1).
  - apply column_repeat.
  - rewrite column_0_stack3, column_1_stack3, column_2_stack3 by congruence.
    auto.
Qed.

Lemma prepare_sampling_params_columns_witness :
  exists sampling_params,
    fst (prepare_sampling_params 2 (Ref 0) (Ref 1) (Ref 2)
           [ObjList [5; 7]; ObjList [1; 1]; ObjTensor [2; 3]])
    = Ok sampling_params
    /\ column 0 sampling_params = Ok (broadcast 2 (length [5; 7]) [5; 7])
    /\ column 1 sampling_params = Ok (broadcast 2 (length [5; 7]) [1; 1])
    /\ column 2 sampling_params = Ok (broadcast 2 (length [5; 7]) [2; 3]).
Proof.
  exact (prepare_sampling_params_columns 2 (Ref 0) (Ref 1) (Ref 2)
           [ObjList [5; 7]; ObjList [1; 1]; ObjTensor [2; 3]]
           [5; 7] [1; 1] [2; 3] eq_refl eq_refl eq_refl eq_refl eq_refl).
Defined.

(* ================================================================= *)
(** ** Further properties of the sampler: shapes and the top-k step *)

Lemma column_rows (j n : nat) (t : list (list R)) :
  Forall (fun row => length row = n) t ->
  ((j < n)%nat -> exists col, column j t = Ok col /\ length col = length t)
  /\ ((n <= j)%nat -> t <> [] -> column j t = Raise IndexError).
Proof.
  intros F. split.
  - intros Lt. unfold column.
    induction F as [| row t E _ IH]; simpl.
    + now exists [].
    + destruct IH as (col & -> & L).
      destruct (nth_error row j) as [x |] eqn:N.
      * exists (x :: col). simpl. now rewrite L.
      * apply nth_error_None in N. lia.
  - intros Le NE. destruct F as [| row t E _]; [congruence |].
    unfold column. simpl.
    replace (nth_error row j) with (@None R); [reflexivity |].
    symmetry. apply nth_error_None. lia.
Qed.

(** X4.  [forward] checks the shape of the sampling parameters before anything
    else: with three columns but a number of rows that is not the batch size
    the reshape of the first column fails; with the right number of rows but
    only two columns the third column cannot be read.  In both cases the
    exception is raised with the generator untouched. *)
Theorem forward_rejects_misshaped_params (self : Sampler)
    (token_logits sampling_params : list (list R)) (return_values : bool)
    (g : rng) :
  (Forall (fun row => length row = 3%nat) sampling_params ->
   length sampling_params <> length token_logits ->
   forward self token_logits sampling_params return_values g
   = (Raise RuntimeError, g))
  /\ (Forall (fun row => length row = 2%nat) sampling_params ->
      length sampling_params = length token_logits ->
      sampling_params <> [] ->
      forward self token_logits sampling_params return_values g
      = (Raise IndexError, g)).
Proof.
  split.
  - intros F NE.
    destruct (proj1 (column_rows 0 3 sampling_params F)) as (col & C & L);
      [lia |].
    unfold forward. rewrite C. cbn [bindR]. unfold reshape.
    replace (Nat.eqb (length col) (length token_logits)) with false;
      [reflexivity |].
    symmetry. apply Nat.eqb_neq. congruence.
  - intros F E NE.
    destruct (proj1 (column_rows 0 2 sampling_params F)) as (c0 & C0 & L0);
      [lia |].
    destruct (proj1 (column_rows 1 2 sampling_params F)) as (c1 & C1 & L1);
      [lia |].
    pose proof (proj2 (column_rows 2 2 sampling_params F) (le_n 2) NE) as C2.
    unfold forward. rewrite C0, C1, C2. cbn [bindR].
    rewrite !reshape_ok by congruence. reflexivity.
Qed.

Lemma forward_rejects_misshaped_params_witness :
  forward (a_sampler true false true true true 0) [[1; 2]; [2; 1]]
    [[1; 1; 1]] false (constant_rng 0)
  = (Raise RuntimeError, constant_rng 0)
  /\ forward (a_sampler true false true true true 0) [[1; 2]]
       [[1; 1]] false (constant_rng 0)
     = (Raise IndexError, constant_rng 0).
Proof.
  split.
  - apply (proj1 (forward_rejects_misshaped_params
                    (a_sampler true false true true true 0)
                    [[1; 2]; [2; 1]] [[1; 1; 1]] false (constant_rng 0))).
    + repeat constructor.
    + simpl. lia.
  - apply (proj2 (forward_rejects_misshaped_params
                    (a_sampler true false true true true 0)
                    [[1; 2]] [[1; 1]] false (constant_rng 0))).
    + repeat constructor.
    + reflexivity.
    + discriminate.
Defined.

Lemma nth_error_map2 {A B C : Type} (f : A -> B -> C) (a : list A)
    (b : list B) (i : nat) :
  nth_error (map2 f a b) i
  = match nth_error a i, nth_error b i with
    | Some x, Some y => Some (f x y)
    | _, _ => None
    end.
Proof.
  unfold map2. revert b i.
  induction a as [| x a IH]; intros [| y b] [| i]; simpl; auto.
  now destruct (nth_error a i).
Qed.

Lemma nth_error_arange (n j : nat) :
  (j < n)%nat -> nth_error (torch.arange n) j = Some (INR j).
Proof.
  intros L. unfold torch.arange.
  rewrite nth_error_map, nth_error_seq.
  replace (Nat.ltb j n) with true by (symmetry; now apply Nat.ltb_lt).
  reflexivity.
Qed.

(** X5.  On CPU, for logits of shape (B, V) with B at least 1 and a top_k
    column of B entries, the top-k step fails exactly when [global_topk]
    exceeds the size V of the vocabulary axis, and then with the error of
    [torch.topk], which cannot select that many entries; with [global_topk]
    at most V (in particular with the full sort, [global_topk <= 0]) it
    returns. *)
Theorem top_k_masked_raises_iff_k_too_large (self : Sampler)
    (logits : list (list R)) (top_k : list R) (V : nat) :
  Config.on_cpu (neuron_config self) = true ->
  length top_k = length logits ->
  logits <> [] ->
  Forall (fun row => length row = V) logits ->
  ((exists e, _top_k_masked self logits top_k = Raise e)
   <-> (Z.of_nat V < global_topk self)%Z)
  /\ ((Z.of_nat V < global_topk self)%Z ->
      _top_k_masked self logits top_k = Raise RuntimeError).
Proof.
  intros Cpu Lk NE Rect.
  assert (Big : (Z.of_nat V < global_topk self)%Z ->
                _top_k_masked self logits top_k = Raise RuntimeError).
  { intros Lt. unfold _top_k_masked, torch.topk. rewrite Cpu.
    replace (Z.gtb (global_topk self) 0) with true
      by (symmetry; apply Z.gtb_lt; lia).
    destruct logits as [| row t]; [congruence |].
    inversion Rect as [| ? ? E _]; subst. cbn [forallb].
    replace (Nat.leb (Z.to_nat (global_topk self)) (length row)) with false
      by (symmetry; apply Nat.leb_gt; lia).
    reflexivity. }
  split; [| exact Big]. split.
  - intros [e He].
    destruct (Z.lt_ge_cases (Z.of_nat V) (global_topk self)) as [Lt | Ge];
      [exact Lt |].
    pose proof (top_k_masked_run self logits top_k V Rect Ge) as Run.
    cbv zeta in Run. rewrite Run in He. discriminate.
  - intros Lt. exists RuntimeError. now apply Big.
Qed.

Lemma top_k_masked_raises_iff_k_too_large_witness :
  ((exists e,
       _top_k_masked (a_sampler true false true true true 5) [[1; 2; 3]] [2]
       = Raise e)
   <-> (Z.of_nat 3 < global_topk (a_sampler true false true true true 5))%Z)
  /\ ((Z.of_nat 3 < global_topk (a_sampler true false true true true 5))%Z ->
      _top_k_masked (a_sampler true false true true true 5) [[1; 2; 3]] [2]
      = Raise RuntimeError).
Proof.
  apply (top_k_masked_raises_iff_k_too_large
           (a_sampler true false true true true 5) [[1; 2; 3]] [2] 3
           eq_refl eq_refl).
  - discriminate.
  - repeat constructor.
Defined.

Lemma sort_row_nth (row : list R) (j : nat) :
  (j < length row)%nat ->
  exists v t, nth_error (torch.sort_row row) j = Some (v, t)
              /\ nth_error row t = Some v.
Proof.
  intros L. rewrite <- (sort_row_length row) in L.
  destruct (nth_error (torch.sort_row row) j) as [[v t] |] eqn:N.
  - exists v, t. split; [reflexivity |].
    apply sort_row_lookup. eapply nth_error_In; eauto.
  - apply nth_error_None in N. lia.
Qed.

(** X6.  What the top-k step returns, entry by entry.  For logits of shape
    (B, V), a top_k column of B entries and [global_topk] at most V, row i of
    the index tensor lists [k_used] positions of row i of the logits; entry j
    of row i of the values is the sentinel when [j >= top_k[i]], and
    otherwise the logit at the listed position: the mask hides entries, it
    never moves them. *)
Theorem top_k_masked_entries (self : Sampler) (logits : list (list R))
    (top_k : list R) (V : nat) :
  length top_k = length logits ->
  Forall (fun row => length row = V) logits ->
  (global_topk self <= Z.of_nat V)%Z ->
  exists values indices,
    _top_k_masked self logits top_k = Ok (values, indices)
    /\ forall i row k,
        nth_error logits i = Some row ->
        nth_error top_k i = Some k ->
        exists vrow irow,
          nth_error values i = Some vrow
          /\ nth_error indices i = Some irow
          /\ forall j, (j < k_used self V)%nat ->
               exists t,
                 nth_error irow j = Some t
                 /\ (t < V)%nat
                 /\ nth_error vrow j
                    = Some (if Rgeb (INR j) k
                            then IGNORED_LOGITS_VALUE self
                            else nth t row 0).
Proof.
  intros Lk Rect Le.
  pose proof (top_k_masked_run self logits top_k V Rect Le) as Run.
  cbv zeta in Run. eexists. eexists. split; [exact Run |].
  intros i row k Hrow Hk.
  assert (Lrow : length row = V).
  { rewrite Forall_forall in Rect. apply Rect. eapply nth_error_In; eauto. }
  pose proof (k_used_le self V Le) as KV.
  set (K := k_used self V) in *.
  set (l := torch.sort_row row).
  assert (Ll : length l = V) by (subst l; now rewrite sort_row_length).
  exists (map2 (fun x (m : bool) => if m then IGNORED_LOGITS_VALUE self else x)
            (firstn K (map fst l))
            (map (fun x => Rgeb x k)
               (torch.arange (length (firstn K (map fst l)))))),
    (firstn K (map snd l)).
  split; [| split].
  - unfold torch.masked_fill, torch.greater_equal.
    rewrite nth_error_map2, nth_error_map2, !nth_error_map, Hrow, Hk.
    reflexivity.
  - now rewrite nth_error_map, Hrow.
  - intros j Lj.
    destruct (sort_row_nth row j) as (v & t & N & Nt); [lia |].
    fold l in N.
    assert (Lf : length (firstn K (map fst l)) = K).
    { rewrite length_firstn, length_map. lia. }
    exists t. split; [| split].
    + rewrite nth_error_firstn, nth_error_map, N.
      replace (Nat.ltb j K) with true by (symmetry; now apply Nat.ltb_lt).
      reflexivity.
    + rewrite <- Lrow. apply nth_error_Some. congruence.
    + rewrite nth_error_map2, nth_error_firstn, !nth_error_map, N, Lf.
      rewrite nth_error_arange by exact Lj.
      replace (Nat.ltb j K) with true by (symmetry; now apply Nat.ltb_lt).
      cbn [option_map fst]. rewrite (nth_error_nth _ _ 0 Nt). reflexivity.
Qed.

Lemma top_k_masked_entries_witness :
  exists values indices,
    _top_k_masked (a_sampler true false true true true 0) [[1; 3; 2]] [2]
    = Ok (values, indices)
    /\ forall i row k,
        nth_error [[1; 3; 2]] i = Some row ->
        nth_error [2] i = Some k ->
        exists vrow irow,
          nth_error values i = Some vrow
          /\ nth_error indices i = Some irow
          /\ forall j,
               (j < k_used (a_sampler true false true true true 0) 3)%nat ->
               exists t,
                 nth_error irow j = Some t
                 /\ (t < 3)%nat
                 /\ nth_error vrow j
                    = Some (if Rgeb (INR j) k
                            then IGNORED_LOGITS_VALUE
                                   (a_sampler true false true true true 0)
                            else nth t row 0).
Proof.
  apply (top_k_masked_entries (a_sampler true false true true true 0)
           [[1; 3; 2]] [2] 3 eq_refl).
  - repeat constructor.
  - simpl. lia.
Defined.

(* ================================================================= *)
(** ** Further properties of the sampler: softmax, cumulative sums, draw *)


Lemma softmax_row_nth (row : list R) (i : nat) :
  nth_error (torch.softmax_row row) i
  = option_map (fun x => exp x / torch.sum_row (map exp row))
      (nth_error row i).
Proof.
  unfold torch.softmax_row. rewrite !nth_error_map.
  now destruct (nth_error row i).
Qed.

Lemma softmax_row_nonneg (row : list R) :
  Forall (fun p => 0 <= p) (torch.softmax_row row).
Proof.
  destruct row as [| x row]; [constructor |].
  pose proof (sum_row_exp_pos (x :: row)) as S.
  unfold torch.softmax_row. apply Forall_map, Forall_map.
  apply Forall_forall. intros y _.
  apply Rlt_le, Rdiv_lt_0_compat; [apply exp_pos | apply S; discriminate].
Qed.

Lemma sum_row_nonneg (row : list R) :
  Forall (fun p => 0 <= p) row -> 0 <= torch.sum_row row.
Proof. induction 1; simpl; lra. Qed.

(** The cumulative sums of entries that are not negative never decrease and
    stay between the start and the total. *)
Lemma cumsum_from_sorted (acc : R) (row : list R) :
  Forall (fun p => 0 <= p) row ->
  StronglySorted Rle (torch.cumsum_from acc row)
  /\ Forall (fun c => acc <= c <= acc + torch.sum_row row)
       (torch.cumsum_from acc row).
Proof.
  intros NN. revert acc.
  induction NN as [| p row P NN IH]; intros acc; simpl.
  - split; constructor.
  - destruct (IH (acc + p)) as [S B]. split.
    + constructor; [exact S |].
      eapply Forall_impl; [| exact B]. simpl. intros; lra.
    + constructor.
      * pose proof (sum_row_nonneg row NN). lra.
      * eapply Forall_impl; [| exact B]. simpl. intros; lra.
Qed.

(** In a list that never decreases, the entries below [draw] are exactly
    those at the positions before their count. *)
Lemma count_less_split (draw : R) (l : list R) :
  StronglySorted Rle l ->
  forall j x, nth_error l j = Some x ->
              ((j < count_less draw l)%nat <-> x < draw).
Proof.
  unfold count_less.
  induction 1 as [| c l S IH F]; intros j x N.
  - destruct j; discriminate.
  - cbn [filter]. destruct (Rltb c draw) eqn:Lt.
    + apply Rltb_true in Lt. destruct j as [| j]; simpl in *.
      * injection N as <-. split; [auto | lia].
      * rewrite <- (IH j x N). lia.
    + apply Rltb_false in Lt.
      assert (Z : filter (fun c0 => Rltb c0 draw) l = []).
      { clear - F Lt. induction F as [| y l Y _ IH]; simpl; auto.
        replace (Rltb y draw) with false; auto.
        symmetry. apply Rltb_false. lra. }
      rewrite Z. simpl. split; [lia |]. intros X. exfalso.
      destruct j as [| j]; simpl in N.
      * injection N as <-. lra.
      * apply nth_error_In in N. rewrite Forall_forall in F.
        specialize (F x N). lra.
Qed.

(** X8.  The pseudo-multinomial count inverts the cumulative distribution.  For
    probabilities that are not negative, the count of a row is the position
    that splits the row's cumulative sums at the draw: the cumulative sums
    before it are strictly below the draw, those from it on are not. *)
Theorem multinomial_is_inverse_cdf (self : Sampler) (probs : list (list R))
    (g g' : rng) (draws : list R) :
  _rand_selector self (torch.cumsum probs) g = (Ok draws, g') ->
  Forall (Forall (fun p => 0 <= p)) probs ->
  exists counts,
    _multinomial self probs g = (Ok counts, g')
    /\ length counts = length probs
    /\ forall i probs_row draw,
        nth_error probs i = Some probs_row ->
        nth_error draws i = Some draw ->
        exists count,
          nth_error counts i = Some count
          /\ forall j c,
              nth_error (torch.cumsum_row probs_row) j = Some c ->
              ((j < count)%nat <-> c < draw).
Proof.
  intros Draw NN.
  exists (map2 count_less draws (torch.cumsum probs)).
  split; [now apply multinomial_run |]. split.
  - destruct (rand_selector_run self (torch.cumsum probs) g)
      as (draws' & g'' & Draw' & L & _).
    rewrite Draw in Draw'. injection Draw' as <- <-.
    rewrite map2_length by exact L. rewrite L.
    unfold torch.cumsum. apply length_map.
  - intros i probs_row draw Hp Hd.
    exists (count_less draw (torch.cumsum_row probs_row)). split.
    + rewrite nth_error_map2, Hd. unfold torch.cumsum.
      now rewrite nth_error_map, Hp.
    + intros j c Hc. apply count_less_split; [| exact Hc].
      apply cumsum_from_sorted.
      rewrite Forall_forall in NN. apply NN. eapply nth_error_In; eauto.
Qed.

Lemma multinomial_is_inverse_cdf_witness :
  exists counts,
    _multinomial (a_sampler true false true true true 0)
      [[1 / 4; 1 / 2; 1 / 4]] (constant_rng 0)
    = (Ok counts, constant_rng 0)
    /\ length counts = 1%nat
    /\ forall i probs_row draw,
        nth_error [[1 / 4; 1 / 2; 1 / 4]] i = Some probs_row ->
        nth_error [1 / 2] i = Some draw ->
        exists count,
          nth_error counts i = Some count
          /\ forall j c,
              nth_error (torch.cumsum_row probs_row) j = Some c ->
              ((j < count)%nat <-> c < draw).
Proof.
  apply (multinomial_is_inverse_cdf (a_sampler true false true true true 0)
           [[1 / 4; 1 / 2; 1 / 4]] (constant_rng 0) (constant_rng 0)
           [1 / 2] eq_refl).
  repeat constructor; lra.
Defined.

(* ================================================================= *)
(** ** Further properties of the sampler: the shape of the top-p mask *)

Lemma greater_sorted_split (p : R) (cs : list R) :
  StronglySorted Rle cs ->
  exists m, (m <= length cs)%nat
            /\ map (fun c => Rgtb c p) cs
               = repeat false m ++ repeat true (length cs - m).
Proof.
  induction 1 as [| c cs Sorted IH F].
  - exists 0%nat. auto.
  - destruct (Rgtb c p) eqn:G.
    + exists 0%nat. split; [lia |].
      rewrite Nat.sub_0_r. cbn [map repeat app length]. rewrite G. f_equal.
      apply Rgtb_true in G.
      clear - F G. induction F as [| y l Y _ IH]; simpl; auto.
      rewrite IH. f_equal. apply Rgtb_true. lra.
    + destruct IH as (m & Lm & E). exists (S m). split; [simpl; lia |].
      cbn [map repeat app length Nat.sub]. now rewrite G, E.
Qed.

Lemma fill_prefix (v : R) (n r : nat) (row : list R) :
  length row = (n + r)%nat ->
  map2 (fun x (m : bool) => if m then v else x) row
    (repeat false n ++ repeat true r)
  = firstn n row ++ repeat v r.
Proof.
  unfold map2. revert row.
  induction n as [| n IH]; intros row L; simpl in *.
  - revert row L. induction r as [| r IHr]; intros [| x row] L;
      try discriminate; simpl; auto.
    f_equal. apply IHr. simpl in L. lia.
  - destruct row as [| x row]; [discriminate |]. simpl.
    f_equal. apply IH. simpl in L. lia.
Qed.

(** One row of the top-p step: the masked row is a prefix of the row,
    followed by sentinels; the prefix is never empty. *)
Lemma top_p_row_prefix (v p : R) (row cs : list R) :
  row <> [] -> length cs = length row -> StronglySorted Rle cs ->
  exists n,
    (1 <= n <= length row)%nat
    /\ map2 (fun x (m : bool) => if m then v else x) row
         (match map (fun c => Rgtb c p) cs with
          | [] => []
          | _ :: t => false :: t
          end)
       = firstn n row ++ repeat v (length row - n).
Proof.
  intros NE L Sorted.
  destruct (greater_sorted_split p cs Sorted) as (m & Lm & E). rewrite E.
  clear Sorted.
  destruct row as [| x row]; [congruence |].
  destruct cs as [| c cs]; [discriminate |].
  simpl in L, Lm. injection L as L. destruct m as [| m].
  - exists 1%nat. split; [simpl; lia |].
    assert (M : match repeat false 0 ++ repeat true (length (c :: cs) - 0)
                with [] => [] | _ :: t => false :: t end
                = repeat false 1 ++ repeat true (length row)).
    { simpl. now rewrite L. }
    rewrite M, fill_prefix by (simpl; lia).
    simpl. now rewrite Nat.sub_0_r.
  - exists (S m). split; [simpl; lia |].
    assert (M : match repeat false (S m)
                      ++ repeat true (length (c :: cs) - S m)
                with [] => [] | _ :: t => false :: t end
                = repeat false (S m) ++ repeat true (length row - m)).
    { simpl. now rewrite L. }
    rewrite M, fill_prefix by (simpl; lia).
    reflexivity.
Qed.

Lemma cumsum_softmax_sorted (row : list R) :
  StronglySorted Rle (torch.cumsum_row (torch.softmax_row row)).
Proof. apply cumsum_from_sorted. apply softmax_row_nonneg. Qed.

Lemma top_p_rows_prefix (vals : list (list R)) (threshold : list R) (v : R) :
  length threshold = length vals ->
  Forall (fun row => row <> []) vals ->
  Forall2 (fun row row' =>
             exists n, (1 <= n <= length row)%nat
                       /\ row' = firstn n row ++ repeat v (length row - n))
    vals
    (torch.masked_fill vals
       (top_p_mask_of (torch.cumsum (torch.softmax vals)) threshold) v).
Proof.
  intros E NE. revert threshold E.
  induction NE as [| row vals Hrow _ IH]; intros [| p threshold] E;
    try discriminate.
  - constructor.
  - simpl in E. injection E as E. specialize (IH threshold E).
    unfold torch.masked_fill, top_p_mask_of, torch.index_fill_0,
      torch.greater, torch.cumsum, torch.softmax in *.
    unfold map2 at 1 2. cbn [map combine fst snd].
    constructor; [| exact IH].
    destruct (top_p_row_prefix v p row
                (torch.cumsum_row (torch.softmax_row row)) Hrow)
      as (n & Bn & En).
    + now rewrite cumsum_row_length, softmax_row_length.
    + apply cumsum_softmax_sorted.
    + exists n. split; [exact Bn | exact En].
Qed.

(** X9.  The top-p step keeps a prefix of every row.  For values with at least one
    row and a candidate axis that is not empty, every row comes out as its
    first n entries, unchanged, followed by sentinels, with n at least 1:
    the nucleus is an initial segment of the sorted candidates and never
    empty. *)
Theorem top_p_keeps_a_prefix (self : Sampler)
    (top_k_logits_values : list (list R)) (top_p : list R) :
  length top_p = length top_k_logits_values ->
  top_k_logits_values <> [] ->
  Forall (fun row => row <> []) top_k_logits_values ->
  exists masked,
    apply_top_p self top_k_logits_values top_p = Ok masked
    /\ Forall2 (fun row row' =>
                  exists n,
                    (1 <= n <= length row)%nat
                    /\ row' = firstn n row
                              ++ repeat (IGNORED_LOGITS_VALUE self)
                                   (length row - n))
         top_k_logits_values masked.
Proof.
  intros Len NE Rows.
  destruct (clamped_top_p_run
              (torch.cumsum (torch.softmax top_k_logits_values)) top_p)
    as (m & _ & Clamp); [now apply cumsum_softmax_not_empty |].
  eexists. split.
  - unfold apply_top_p, _soft_max. rewrite Clamp. reflexivity.
  - apply top_p_rows_prefix; [now rewrite length_map | exact Rows].
Qed.

Lemma top_p_keeps_a_prefix_witness :
  exists masked,
    apply_top_p (a_sampler true false true true true 0) [[3; 2; 1]] [1 / 2]
    = Ok masked
    /\ Forall2 (fun row row' =>
                  exists n,
                    (1 <= n <= length row)%nat
                    /\ row' = firstn n row
                              ++ repeat (IGNORED_LOGITS_VALUE
                                           (a_sampler true false true true
                                              true 0))
                                   (length row - n))
         [[3; 2; 1]] masked.
Proof.
  apply (top_p_keeps_a_prefix (a_sampler true false true true true 0)
           [[3; 2; 1]] [1 / 2] eq_refl).
  - discriminate.
  - repeat constructor; discriminate.
Defined.

(* ================================================================= *)
(** ** Further properties of the sampler: trivial temperature and top_p *)









(* ================================================================= *)
(** ** Further properties of the sampler: what [forward] returns *)


(** The probabilities that [forward] returns are the softmax of some
    values. *)
Lemma forward_probs_are_softmax (self : Sampler) (token_logits sampling_params
    : list (list R)) (g g' : rng) (indices : list (list nat))
    (probs : list (list R)) :
  forward self token_logits sampling_params true g
  = (Ok (OutIndicesProbs indices probs), g') ->
  exists vals, probs = torch.softmax vals.
Proof.
  intros H. unfold forward, bind, lift, ret, _soft_max in H.
  repeat match type of H with
         | context [match ?x with _ => _ end] =>
             destruct x eqn:?; try discriminate
         end.
  injection H as _ <- _. eexists. reflexivity.
Qed.



Lemma top_candidates_in_range (logits : list (list R))
    (indices : list (list nat)) (V : nat) :
  Forall (fun row => length row = V) logits ->
  Forall2 top_candidates logits indices ->
  Forall (Forall (fun t => (t < V)%nat)) indices.
Proof.
  intros Rect Top. revert Rect.
  induction Top as [| row irow logits indices (_ & In & _) _ IH]; intros Rect;
    constructor.
  - inversion Rect; subst. exact In.
  - apply IH. now inversion Rect.
Qed.

Lemma gather_members {A : Type} (input : list (list A)) (index : list nat)
    (out : list A) (P : A -> Prop) :
  Forall (Forall P) input ->
  torch.gather input index = Ok out ->
  Forall P out.
Proof.
  intros F G. unfold torch.gather in G. apply mapR_ok_Forall2 in G.
  remember (combine input index) as pairs eqn:E.
  assert (Fp : Forall (fun ri => Forall P (fst ri)) pairs).
  { subst pairs. clear G. revert index.
    induction F as [| row input Hrow _ IH]; intros [| i index]; simpl;
      constructor; auto. }
  clear E. induction G as [| [row i] x pairs out Hx _ IH]; constructor.
  - inversion Fp as [| ? ? Hrow _]; subst. simpl in *.
    destruct (nth_error row i) as [y |] eqn:N; [| discriminate].
    injection Hx as <-. rewrite Forall_forall in Hrow. apply Hrow.
    eapply nth_error_In; eauto.
  - apply IH. now inversion Fp.
Qed.

(** X12.  Without [return_values], on logits of shape (B, V) with B and V at least
    1, whatever [forward] returns is made of positions of the vocabulary
    axis: either one token id below V per batch row, or (speculative flag)
    B rows of candidate positions below V.  It never returns a pair. *)
Theorem forward_returns_vocabulary_positions (self : Sampler)
    (token_logits : list (list R)) (top_k top_p temperature : list R)
    (V : nat) (g g' : rng) (out : output) :
  length top_k = length token_logits ->
  length top_p = length token_logits ->
  length temperature = length token_logits ->
  token_logits <> [] ->
  Forall (fun row => length row = V) token_logits ->
  (1 <= V)%nat ->
  (global_topk self <= Z.of_nat V)%Z ->
  forward self token_logits (stack3 top_k top_p temperature) false g
  = (Ok out, g') ->
  match out with
  | OutTokens tokens =>
      length tokens = length token_logits
      /\ Forall (fun t => (t < V)%nat) tokens
  | OutIndices indices =>
      length indices = length token_logits
      /\ Forall (Forall (fun t => (t < V)%nat)) indices
  | OutTokensValues _ _ => False
  | OutIndicesProbs _ _ => False
  end.
Proof.
  intros Hk Hp Ht NE Rect PosV Le H.
  destruct (greedy self top_k) eqn:G.
  - rewrite forward_greedy_run in H by assumption.
    destruct (argmax_spec token_logits) as (tokens & Arg & Max).
    { eapply rows_not_empty; eauto. }
    rewrite Arg in H.
    assert (E : out = OutTokens tokens).
    { destruct (Config.on_cpu (neuron_config self)); congruence. }
    subst out. split; [symmetry; exact (Forall2_length Max) |].
    clear - Max Rect. revert Rect.
    induction Max as [| row t logits tokens (x & At & _) _ IH]; intros Rect;
      constructor.
    + inversion Rect; subst. apply nth_error_Some. congruence.
    + apply IH. now inversion Rect.
  - destruct (is_medusa self) eqn:Med.
    + rewrite forward_medusa_run in H by assumption.
      pose proof (top_k_masked_run self token_logits top_k V Rect Le) as Run.
      cbv zeta in Run. rewrite Run in H. injection H as <- _.
      split; [apply length_map |].
      apply (top_candidates_in_range token_logits); [exact Rect |].
      clear. induction token_logits as [| row t IH]; simpl; constructor; auto.
      apply sort_row_top_candidates.
    + destruct (forward_general_run self token_logits top_k top_p
                  temperature V)
        as (indices & probs & _ & RunF & Li & _ & Top & Shape & _); auto.
      rewrite RunF in H.
      destruct (rand_selector_run self (torch.cumsum probs) g)
        as (draws & g1 & Draw & Ld & _).
      rewrite (bind_ok _ _ _ _ _ (multinomial_run _ _ _ _ _ Draw)) in H.
      unfold bind, lift, ret in H.
      destruct (torch.gather indices
                  (map2 count_less draws (torch.cumsum probs)))
        as [tokens | e] eqn:Gt; [| discriminate].
      injection H as <- _. split.
      * apply gather_spec in Gt as [L _]; [congruence |].
        rewrite map2_length by exact Ld. rewrite Ld.
        unfold torch.cumsum. rewrite length_map.
        rewrite (same_shape_length _ _ Shape). reflexivity.
      * eapply gather_members; [| exact Gt].
        now apply (top_candidates_in_range token_logits).
Qed.

Lemma forward_returns_vocabulary_positions_witness :
  forward (a_sampler true false false false false 0) [[1; 3; 2]]
    (stack3 [1] [1] [1]) false (constant_rng 0)
  = (Ok (OutTokens [1%nat]), constant_rng 0)
  /\ length [1%nat] = 1%nat
  /\ Forall (fun t => (t < 3)%nat) [1%nat].
Proof.
  assert (Run : forward (a_sampler true false false false false 0)
                  [[1; 3; 2]] (stack3 [1] [1] [1]) false (constant_rng 0)
                = (Ok (OutTokens [1%nat]), constant_rng 0)).
  { rewrite forward_greedy_run by reflexivity.
    cbn [a_sampler neuron_config a_config Config.on_cpu].
    unfold torch.argmax, torch.argmax_row; cbn [mapR torch.argmax_from].
    Rcompare. reflexivity. }
  split; [exact Run |].
  apply (forward_returns_vocabulary_positions
           (a_sampler true false false false false 0) [[1; 3; 2]]
           [1] [1] [1] 3 (constant_rng 0) (constant_rng 0)
           (OutTokens [1%nat]) eq_refl eq_refl eq_refl).
  - discriminate.
  - repeat constructor.
  - lia.
  - simpl. lia.
  - exact Run.
Defined.

(** X13.  How many numbers a call draws.  Off the greedy path and without the
    speculative flag, on logits of shape (B, V) with B and V at least 1:
    with [return_values] the generator is handed back untouched; without it
    the generator has advanced by exactly B draws, one per batch row, unless
    the sampler is deterministic, in which case it has not advanced.  This
    holds whether or not the gather that follows succeeds. *)
Theorem forward_draws_one_number_per_row (self : Sampler)
    (token_logits : list (list R)) (top_k top_p temperature : list R)
    (V : nat) (g : rng) :
  length top_k = length token_logits ->
  length top_p = length token_logits ->
  length temperature = length token_logits ->
  token_logits <> [] ->
  Forall (fun row => length row = V) token_logits ->
  (1 <= V)%nat ->
  (global_topk self <= Z.of_nat V)%Z ->
  greedy self top_k = false ->
  is_medusa self = false ->
  snd (forward self token_logits (stack3 top_k top_p temperature) true g) = g
  /\ snd (forward self token_logits (stack3 top_k top_p temperature) false g)
     = (if deterministic self then g
        else advance g (length token_logits)).
Proof.
  intros Hk Hp Ht NE Rect PosV Le G Med.
  destruct (forward_general_run self token_logits top_k top_p temperature V)
    as (indices & probs & RunT & RunF & Li & _ & _ & Shape & _); auto.
  split; [now rewrite RunT |].
  rewrite RunF.
  assert (Lc : length (torch.cumsum probs) = length token_logits).
  { unfold torch.cumsum. rewrite length_map.
    rewrite (same_shape_length _ _ Shape). exact Li. }
  assert (Draw : _rand_selector self (torch.cumsum probs) g
                 = (Ok (if deterministic self
                        then torch.full (length (torch.cumsum probs)) (1 / 2)
                        else map (stream g)
                               (seq (cursor g) (length (torch.cumsum probs)))),
                    if deterministic self then g
                    else advance g (length token_logits))).
  { unfold _rand_selector, rand_like, advance, ret. rewrite Lc.
    now destruct (deterministic self). }
  rewrite (bind_ok _ _ _ _ _ (multinomial_run _ _ _ _ _ Draw)).
  unfold bind, lift, ret.
  now destruct (torch.gather indices _).
Qed.

Lemma forward_draws_one_number_per_row_witness :
  snd (forward (a_sampler true false true true false 0) [[1; 3; 2]]
         (stack3 [3] [1] [1]) true (constant_rng 0)) = constant_rng 0
  /\ snd (forward (a_sampler true false true true false 0) [[1; 3; 2]]
            (stack3 [3] [1] [1]) false (constant_rng 0))
     = (if deterministic (a_sampler true false true true false 0)
        then constant_rng 0
        else advance (constant_rng 0) 1).
Proof.
  apply (forward_draws_one_number_per_row
           (a_sampler true false true true false 0) [[1; 3; 2]] [3] [1] [1]
           3 (constant_rng 0) eq_refl eq_refl eq_refl).
  - discriminate.
  - repeat constructor.
  - lia.
  - simpl. lia.
  - reflexivity.
  - reflexivity.
Defined.

Lemma count_less_zero (draw : R) (probs_row : list R) :
  Forall (fun p => 0 <= p) probs_row ->
  draw <= hd 0 probs_row ->
  count_less draw (torch.cumsum_row probs_row) = 0%nat.
Proof.
  intros NN Hd. unfold count_less, torch.cumsum_row.
  destruct probs_row as [| p row]; [reflexivity |]. simpl in Hd.
  destruct (cumsum_from_sorted 0 (p :: row) NN) as [Sorted _].
  cbn [torch.cumsum_from] in *. inversion Sorted as [| ? ? _ F]; subst.
  cbn [filter].
  replace (Rltb (0 + p) draw) with false
    by (symmetry; apply Rltb_false; lra).
  assert (Z : filter (fun c => Rltb c draw) (torch.cumsum_from (0 + p) row)
              = []).
  { clear - F Hd. induction F as [| y l Y _ IH]; simpl; auto.
    replace (Rltb y draw) with false; auto.
    symmetry. apply Rltb_false. lra. }
  now rewrite Z.
Qed.

Lemma top_candidate_holds_maximum (row : list R) (irow : list nat) (t : nat) :
  top_candidates row irow -> hd_error irow = Some t -> holds_maximum row t.
Proof.
  intros (_ & Range & Sorted & Rest) Hd.
  destruct irow as [| t' irow]; [discriminate |]. injection Hd as ->.
  split; [now inversion Range |].
  intros j Lj.
  destruct (in_dec Nat.eq_dec j (t :: irow)) as [[<- | In] | Out].
  - lra.
  - inversion Sorted as [| ? ? _ F]; subst.
    rewrite Forall_forall in F. now apply F.
  - apply Rest; auto. now left.
Qed.

(** X14.  Deterministic sampling follows the majority.  With [deterministic] set,
    off the greedy path and without the speculative flag, if the final
    probability of the first candidate of every row is at least one half,
    then [forward] returns for every row its first candidate, a position
    that holds a largest logit of the row: the fixed draw 0.5 does not get
    past the first cumulative probability. *)
Theorem deterministic_follows_majority (self : Sampler)
    (token_logits : list (list R)) (top_k top_p temperature : list R)
    (V : nat) (g g0 : rng) (indices : list (list nat))
    (probs : list (list R)) :
  deterministic self = true ->
  length top_k = length token_logits ->
  length top_p = length token_logits ->
  length temperature = length token_logits ->
  token_logits <> [] ->
  Forall (fun row => length row = V) token_logits ->
  (1 <= V)%nat ->
  (global_topk self <= Z.of_nat V)%Z ->
  greedy self top_k = false ->
  is_medusa self = false ->
  forward self token_logits (stack3 top_k top_p temperature) true g
  = (Ok (OutIndicesProbs indices probs), g0) ->
  Forall (fun probs_row => 1 / 2 <= hd 0 probs_row) probs ->
  exists tokens,
    forward self token_logits (stack3 top_k top_p temperature) false g
    = (Ok (OutTokens tokens), g)
    /\ Forall2 (fun irow t => hd_error irow = Some t) indices tokens
    /\ Forall2 holds_maximum token_logits tokens.
Proof.
  intros D Hk Hp Ht NE Rect PosV Le G Med H Major.
  destruct (forward_general_run self token_logits top_k top_p temperature V)
    as (indices' & probs' & RunT & RunF & Li & Si & Top & Shape & _); auto.
  rewrite RunT in H. injection H as -> -> _.
  destruct (forward_probs_are_softmax _ _ _ _ _ _ _ (RunT g)) as (vals & Ev).
  assert (NN : Forall (Forall (fun p => 0 <= p)) probs).
  { rewrite Ev. unfold torch.softmax. apply Forall_map.
    apply Forall_forall. intros row _. apply softmax_row_nonneg. }
  clear Ev vals.
  assert (K : (1 <= k_used self V)%nat) by now apply k_used_pos.
  (* every count is 0 *)
  assert (Counts : map2 count_less
                     (repeat (1 / 2) (length (torch.cumsum probs)))
                     (torch.cumsum probs)
                   = repeat 0%nat (length probs)).
  { unfold torch.cumsum, map2. rewrite length_map. clear - Major NN.
    induction probs as [| row probs IH]; simpl; auto.
    inversion Major; subst. inversion NN; subst.
    rewrite IH by assumption. f_equal. now apply count_less_zero. }
  (* gathering at 0 takes the head of every row *)
  assert (Heads : exists tokens,
             torch.gather indices (repeat 0%nat (length probs)) = Ok tokens
             /\ Forall2 (fun irow t => hd_error irow = Some t) indices tokens).
  { rewrite (same_shape_length _ _ Shape). clear - Si K.
    unfold torch.gather.
    induction Si as [| irow indices E _ (tokens & Gt & Hd)]; simpl.
    - exists []. split; [reflexivity | constructor].
    - destruct irow as [| t irow]; [simpl in E; lia |].
      exists (t :: tokens). simpl. rewrite Gt. split; [reflexivity |].
      now constructor. }
  destruct Heads as (tokens & Gt & Hd).
  exists tokens. split; [| split; [exact Hd |]].
  - rewrite RunF.
    rewrite (bind_ok _ _ _ _ _
               (multinomial_run _ _ _ _ _
                  (rand_selector_deterministic self _ g D))).
    rewrite Counts. unfold bind, lift, ret. now rewrite Gt.
  - clear - Top Hd. revert tokens Hd.
    induction Top as [| row irow logits indices T _ IH]; intros tokens Hd;
      inversion Hd; subst; constructor.
    + eapply top_candidate_holds_maximum; eauto.
    + now apply IH.
Qed.

Lemma majority_of_two (a b : R) :
  0 < b -> b <= a -> 1 / 2 <= a / (a + (b + 0)).
Proof.
  intros Pb Le.
  assert (E : a / (a + (b + 0)) - 1 / 2 = (a - b) / (2 * (a + b)))
    by (field; lra).
  assert (P : 0 <= (a - b) / (2 * (a + b))).
  { apply Rmult_le_pos; [lra |]. apply Rlt_le, Rinv_0_lt_compat. lra. }
  lra.
Qed.

(** One run with [return_values], on a vocabulary of two entries: row 0 has
    its largest logit at position 1, row 1 at position 0; nothing is masked
    (top_k = 2), nothing scaled (not dynamic, temperature 1, top_p 1). *)
Lemma forward_two_rows_probs (g : rng) :
  forward (a_sampler true false true false true 0) [[0; 5]; [2; 1]]
    (stack3 [2; 2] [1; 1] [1; 1]) true g
  = (Ok (OutIndicesProbs [[1; 0]; [0; 1]]%nat
           (torch.softmax [[5; 0]; [2; 1]])), g).
Proof.
  unfold forward.
  rewrite column_0_stack3, column_1_stack3, column_2_stack3 by reflexivity.
  cbn [bindR]. rewrite !reshape_ok by reflexivity.
  unfold lift at 1 2 3. cbv beta iota delta [bind].
  unfold greedy, torch.all, torch.any.
  cbn [a_sampler do_sample dynamic is_medusa negb map forallb existsb orb
         andb].
  Rcompare. cbn [orb andb].
  unfold lift at 1.
  unfold _top_k_masked, torch.sort, torch.sort_row, torch.masked_fill,
    torch.greater_equal, torch.arange, map2.
  cbn [a_sampler global_topk Z.gtb Z.compare bindR map length seq combine
         fold_right torch.insert_desc fst snd INR IGNORED_LOGITS_VALUE].
  Rcompare.
  cbn [map length seq combine fst snd INR].
  Rcompare. reflexivity.
Qed.

Lemma deterministic_follows_majority_witness :
  exists tokens,
    forward (a_sampler true false true false true 0) [[0; 5]; [2; 1]]
      (stack3 [2; 2] [1; 1] [1; 1]) false (constant_rng 0)
    = (Ok (OutTokens tokens), constant_rng 0)
    /\ Forall2 (fun irow t => hd_error irow = Some t)
         [[1; 0]; [0; 1]]%nat tokens
    /\ Forall2 holds_maximum [[0; 5]; [2; 1]] tokens.
Proof.
  apply (deterministic_follows_majority
           (a_sampler true false true false true 0) [[0; 5]; [2; 1]]
           [2; 2] [1; 1] [1; 1] 2 (constant_rng 0) (constant_rng 0)
           [[1; 0]; [0; 1]]%nat (torch.softmax [[5; 0]; [2; 1]])
           eq_refl eq_refl eq_refl eq_refl).
  - discriminate.
  - repeat constructor.
  - lia.
  - simpl. lia.
  - unfold greedy, torch.all.
    cbn [a_sampler do_sample dynamic negb map forallb orb andb].
    replace (Rleb 2 1) with false by (symmetry; apply Rleb_false; lra).
    reflexivity.
  - reflexivity.
  - apply forward_two_rows_probs.
  - unfold torch.softmax, torch.softmax_row, torch.sum_row.
    cbn [map fold_right hd].
    constructor; [| constructor; [| constructor]].
    + apply majority_of_two; [apply exp_pos |].
      left. apply exp_increasing. lra.
    + apply majority_of_two; [apply exp_pos |].
      left. apply exp_increasing. lra.
Defined.

Lemma forward_greedy_device_values_witness :
  exists tokens,
    forward (a_sampler false false false false false 0) [[1; 3; 2]]
      (stack3 [1] [1] [1]) true (constant_rng 0)
    = (Ok (OutTokensValues tokens (repeat 1 (length tokens))), constant_rng 0)
    /\ Forall2 is_argmax [[1; 3; 2]] tokens.
Proof.
  apply (forward_greedy_device_values
           (a_sampler false false false false false 0) [[1; 3; 2]]
           [1] [1] [1] (constant_rng 0) eq_refl eq_refl eq_refl).
  - reflexivity.
  - reflexivity.
  - repeat constructor; discriminate.
Defined.

Lemma forward_deterministic_returns_witness :
  exists tokens,
    length tokens = 2%nat
    /\ forall g,
        forward (a_sampler true false true true true 2)
          [[1; 3; 2]; [5; 4; 3]] (stack3 [2; 1] [1; 1 / 2] [1; 2]) false g
        = (Ok (OutTokens tokens), g).
Proof.
  apply (forward_deterministic_returns
           (a_sampler true false true true true 2) [[1; 3; 2]; [5; 4; 3]]
           [2; 1] [1; 1 / 2] [1; 2] 3 eq_refl eq_refl eq_refl eq_refl).
  - discriminate.
  - repeat constructor.
  - lia.
  - simpl. lia.
  - reflexivity.
  - reflexivity.
Defined.

(* ================================================================= *)
(** ** Further properties of the sampler: construction *)

(** X15.  Construction fails exactly when the configuration has no on-device
    sampling configuration, and then with the assertion error.  A sampler
    constructed with the override [do_sample=False] is greedy on every call,
    whatever the configuration and the sampling parameters say: [forward]
    returns the arg-max token of every row and draws nothing. *)
Theorem do_sample_override_forces_greedy (config : Config.NeuronConfig)
    (do_sample_override : option bool) :
  ((exists e, Sampler_init config do_sample_override = Raise e)
   <-> Config.on_device_sampling_config config = None)
  /\ (Config.on_device_sampling_config config = None ->
      Sampler_init config do_sample_override
      = Raise (AssertionError NotInitialized))
  /\ (forall self token_logits top_k top_p temperature return_values g,
         Sampler_init config (Some false) = Ok self ->
         length top_k = length token_logits ->
         length top_p = length token_logits ->
         length temperature = length token_logits ->
         Forall (fun row => row <> []) token_logits ->
         exists out tokens,
           forward self token_logits (stack3 top_k top_p temperature)
             return_values g = (Ok out, g)
           /\ tokens_of out = Some tokens
           /\ Forall2 is_argmax token_logits tokens).
Proof.
  split; [| split].
  - unfold Sampler_init.
    destruct (Config.on_device_sampling_config config); split;
      try discriminate; auto.
    + intros [e He]. discriminate.
    + intros _. eexists. reflexivity.
  - intros E. unfold Sampler_init. now rewrite E.
  - intros self token_logits top_k top_p temperature return_values g Init
      Hk Hp Ht NE.
    assert (G : greedy self top_k = true).
    { unfold Sampler_init in Init.
      destruct (Config.on_device_sampling_config config); [| discriminate].
      injection Init as <-. reflexivity. }
    destruct (argmax_spec token_logits NE) as (tokens & Arg & Max).
    exists (if Config.on_cpu (neuron_config self) then OutTokens tokens
            else if return_values
                 then OutTokensValues tokens (torch.ones (length tokens))
                 else OutTokens tokens), tokens.
    split; [| split; [| exact Max]].
    + rewrite forward_greedy_run by assumption. now rewrite Arg.
    + destruct (Config.on_cpu (neuron_config self)), return_values;
        reflexivity.
Qed.

Lemma do_sample_override_forces_greedy_witness :
  match Sampler_init (a_config true false true true false 0) (Some false) with
  | Ok self =>
      exists out tokens,
        forward self [[1; 3; 2]] (stack3 [5] [1 / 2] [2]) false
          (constant_rng 0) = (Ok out, constant_rng 0)
        /\ tokens_of out = Some tokens
        /\ Forall2 is_argmax [[1; 3; 2]] tokens
  | Raise _ => False
  end.
Proof.
  cbn [Sampler_init a_config Config.on_device_sampling_config].
  apply (proj2 (proj2 (do_sample_override_forces_greedy
                         (a_config true false true true false 0) None)));
    try reflexivity.
  repeat constructor; discriminate.
Defined.

(* ================================================================= *)
(** ** Further properties of the sampler: the [_top_p] method *)






(* ================================================================= *)
(** ** Further properties of the sampler: whole calls *)

Lemma top_k_masked_too_large (self : Sampler) (logits : list (list R))
    (top_k : list R) (V : nat) :
  logits <> [] ->
  Forall (fun row => length row = V) logits ->
  (Z.of_nat V < global_topk self)%Z ->
  _top_k_masked self logits top_k = Raise RuntimeError.
Proof.
  intros NE Rect Lt. unfold _top_k_masked, nxd_topk, torch.topk.
  replace (Z.gtb (global_topk self) 0) with true
    by (symmetry; apply Z.gtb_lt; lia).
  destruct logits as [| row t]; [congruence |].
  inversion Rect as [| ? ? E _]; subst. cbn [forallb].
  replace (Nat.leb (Z.to_nat (global_topk self)) (length row)) with false
    by (symmetry; apply Nat.leb_gt; lia).
  cbn [andb bindR]. now destruct (Config.on_cpu (neuron_config self)).
Qed.

(** X19.  A [global_topk] larger than the vocabulary only matters off the greedy
    path: there every call fails in the top-k step, before anything is drawn,
    while a greedy call never looks at [global_topk] and returns the arg-max
    tokens all the same. *)
Theorem global_topk_beyond_vocabulary (self : Sampler)
    (token_logits : list (list R)) (top_k top_p temperature : list R)
    (V : nat) (return_values : bool) (g : rng) :
  length top_k = length token_logits ->
  length top_p = length token_logits ->
  length temperature = length token_logits ->
  token_logits <> [] ->
  Forall (fun row => length row = V) token_logits ->
  (1 <= V)%nat ->
  (Z.of_nat V < global_topk self)%Z ->
  (greedy self top_k = false ->
   forward self token_logits (stack3 top_k top_p temperature)
     return_values g = (Raise RuntimeError, g))
  /\ (greedy self top_k = true ->
      exists out tokens,
        forward self token_logits (stack3 top_k top_p temperature)
          return_values g = (Ok out, g)
        /\ tokens_of out = Some tokens
        /\ Forall2 is_argmax token_logits tokens).
Proof.
  intros Hk Hp Ht NE Rect PosV Lt. split; intros G.
  - forward_prologue Hk Hp Ht. rewrite G. unfold lift.
    now rewrite (top_k_masked_too_large self token_logits top_k V).
  - destruct (argmax_spec token_logits) as (tokens & Arg & Max).
    { eapply rows_not_empty; eauto. }
    exists (if Config.on_cpu (neuron_config self) then OutTokens tokens
            else if return_values
                 then OutTokensValues tokens (torch.ones (length tokens))
                 else OutTokens tokens), tokens.
    split; [| split; [| exact Max]].
    + rewrite forward_greedy_run by assumption. now rewrite Arg.
    + destruct (Config.on_cpu (neuron_config self)), return_values;
        reflexivity.
Qed.

Lemma global_topk_beyond_vocabulary_witness :
  forward (a_sampler true false true true true 5) [[1; 3; 2]]
    (stack3 [2] [1] [1]) false (constant_rng 0)
  = (Raise RuntimeError, constant_rng 0)
  /\ exists out tokens,
      forward (a_sampler true false false true true 5) [[1; 3; 2]]
        (stack3 [2] [1] [1]) false (constant_rng 0)
      = (Ok out, constant_rng 0)
      /\ tokens_of out = Some tokens
      /\ Forall2 is_argmax [[1; 3; 2]] tokens.
Proof.
  split.
  - apply (proj1 (global_topk_beyond_vocabulary
                    (a_sampler true false true true true 5) [[1; 3; 2]]
                    [2] [1] [1] 3 false (constant_rng 0)
                    eq_refl eq_refl eq_refl
                    ltac:(discriminate) ltac:(repeat constructor)
                    ltac:(lia) ltac:(simpl; lia))).
    reflexivity.
  - apply (proj2 (global_topk_beyond_vocabulary
                    (a_sampler true false false true true 5) [[1; 3; 2]]
                    [2] [1] [1] 3 false (constant_rng 0)
                    eq_refl eq_refl eq_refl
                    ltac:(discriminate) ltac:(repeat constructor)
                    ltac:(lia) ltac:(simpl; lia))).
    reflexivity.
Defined.

(** X20.  With the sampling parameters that the defaults of
    [prepare_sampling_params] give (a single top_k of at most 1, broadcast to
    the batch), a sampler that is not dynamic decodes greedily: the prepared
    tensor sends [forward] down the fast path, which returns the arg-max
    token of every row and draws nothing, whatever the single top_p and
    temperature are. *)
Theorem singleton_top_k_one_decodes_greedily (self : Sampler)
    (token_logits : list (list R)) (top_k top_p temperature : pyval)
    (h : heap) (k p t : R) (return_values : bool) (g : rng) :
  coerced h top_k = Some [k] ->
  coerced h top_p = Some [p] ->
  coerced h temperature = Some [t] ->
  k <= 1 ->
  dynamic self = false ->
  Forall (fun row => row <> []) token_logits ->
  exists sampling_params out tokens,
    fst (prepare_sampling_params (length token_logits) top_k top_p
           temperature h) = Ok sampling_params
    /\ forward self token_logits sampling_params return_values g
       = (Ok out, g)
    /\ tokens_of out = Some tokens
    /\ Forall2 is_argmax token_logits tokens.
Proof.
  intros Ck Cp Ct K1 Dy NE.
  destruct (prepare_sampling_params_run (length token_logits) _ _ _ _ _ _ _
              Ck Cp Ct) as (h' & _ & Run).
  simpl in Run.
  destruct (argmax_spec token_logits NE) as (tokens & Arg & Max).
  exists (repeat [k; p; t] (length token_logits)).
  exists (if Config.on_cpu (neuron_config self) then OutTokens tokens
          else if return_values
               then OutTokensValues tokens (torch.ones (length tokens))
               else OutTokens tokens), tokens.
  split; [now rewrite Run |].
  split; [| split; [| exact Max]].
  - rewrite <- stack3_repeat.
    rewrite forward_greedy_run; try apply repeat_length.
    + now rewrite Arg.
    + apply greedy_iff. right. split; [exact Dy |].
      apply Forall_forall. intros x In. apply repeat_spec in In. now subst.
  - destruct (Config.on_cpu (neuron_config self)), return_values; reflexivity.
Qed.

Lemma singleton_top_k_one_decodes_greedily_witness :
  exists sampling_params out tokens,
    fst (prepare_sampling_params (length [[1; 3; 2]; [5; 4; 3]])
           (Ref 0) (Ref 1) (Scalar 2)
           [ObjList [1]; ObjList [1 / 2]]) = Ok sampling_params
    /\ forward (a_sampler true false true false false 0)
         [[1; 3; 2]; [5; 4; 3]] sampling_params false (constant_rng 0)
       = (Ok out, constant_rng 0)
    /\ tokens_of out = Some tokens
    /\ Forall2 is_argmax [[1; 3; 2]; [5; 4; 3]] tokens.
Proof.
  apply (singleton_top_k_one_decodes_greedily
           (a_sampler true false true false false 0)
           [[1; 3; 2]; [5; 4; 3]] (Ref 0) (Ref 1) (Scalar 2)
           [ObjList [1]; ObjList [1 / 2]] 1 (1 / 2) 2 false (constant_rng 0)
           eq_refl eq_refl eq_refl).
  - lra.
  - reflexivity.
  - repeat constructor; discriminate.
Defined.




